(** * Uniswap V3 math (src/math/unimath.py): a shallow embedding in Rocq

    The module computes with Python numbers: unbounded [int]s and IEEE-754
    binary64 [float]s.  Python's [int] is [Z]; Python's [float] is the
    Standard Library's [spec_float] at precision 53 and exponent bound 1024,
    whose operations are the correctly rounded (round-to-nearest-even) ones
    CPython gets from the hardware.  Mixed [int]/[float] arithmetic converts
    the [int] first, as CPython does.  Exceptions CPython raises are the
    [Err] case of a small error monad. *)

From Stdlib Require Import ZArith Bool Lia Reals Lra.
From Stdlib Require Import SpecFloat.

Open Scope Z_scope.

(** ** Python's exceptions and the error monad *)

Inductive exn := ValueError | ZeroDivisionError | OverflowError.

Inductive res (A : Type) := Ok (a : A) | Err (e : exn).
Arguments Ok {A} a.
Arguments Err {A} e.

Definition bind {A B} (r : res A) (k : A -> res B) : res B :=
  match r with Ok a => k a | Err e => Err e end.

Notation "'let*' x ':=' r 'in' k" := (bind r (fun x => k))
  (at level 200, x name, r at level 100, k at level 200).

(** ** binary64 *)

Definition prec : Z := 53.
Definition emax : Z := 1024.

Abbreviation float := spec_float.

Definition fmul := SFmul prec emax.
Definition fdiv := SFdiv prec emax.
Definition fsqrt := SFsqrt prec emax.
Definition fltb := SFltb.

(** The float nearest to [a / b] for [a >= 0], [b > 0], with sign [s]
    (round to nearest, ties to even). *)
Definition round_ratio (s : bool) (a b : Z) : float :=
  if a =? 0 then S754_zero s
  else let '(mz, ez, lz) := SFdiv_core_binary prec emax a 0 b 0 in
       binary_round_aux prec emax s mz ez lz.

(** [float(z)] ([PyLong_AsDouble]): correctly rounded; too large raises. *)
Definition float_of_int (z : Z) : res float :=
  match binary_normalize prec emax z 0 false with
  | S754_infinity _ => Err OverflowError
  | f => Ok f
  end.

(** [a / b] on two [int]s ([long_true_divide]): the correctly rounded
    quotient. *)
Definition int_truediv (a b : Z) : res float :=
  if b =? 0 then Err ZeroDivisionError
  else match round_ratio (xorb (a <? 0) (b <? 0)) (Z.abs a) (Z.abs b) with
       | S754_infinity _ => Err OverflowError
       | f => Ok f
       end.

(** [a // b] on two [int]s: floor division. *)
Definition int_floordiv (a b : Z) : res Z :=
  if b =? 0 then Err ZeroDivisionError else Ok (a / b).

Definition is_zero (f : float) : bool :=
  match f with S754_zero _ => true | _ => false end.

(** [a / b] on two [float]s ([float_div]). *)
Definition float_div (a b : float) : res float :=
  if is_zero b then Err ZeroDivisionError else Ok (fdiv a b).

(** [int(x)] of a [float] ([PyLong_FromDouble] after truncation). *)
Definition int_of_float (f : float) : res Z :=
  match f with
  | S754_nan => Err ValueError
  | S754_infinity _ => Err OverflowError
  | S754_zero _ => Ok 0
  | S754_finite s m e =>
      let v := if 0 <=? e then Z.shiftl (Zpos m) e else Z.shiftr (Zpos m) (- e) in
      Ok (if s then - v else v)
  end.

(** [math.floor(x)] of a [float]. *)
Definition float_floor (f : float) : res Z :=
  match f with
  | S754_nan => Err ValueError
  | S754_infinity _ => Err OverflowError
  | S754_zero _ => Ok 0
  | S754_finite s m e =>
      Ok (if 0 <=? e then Z.shiftl (cond_Zopp s (Zpos m)) e
          else Z.shiftr (cond_Zopp s (Zpos m)) (- e))
  end.

(** ** Python numbers *)

Inductive num := NInt (z : Z) | NFloat (f : float).

Definition to_float (x : num) : res float :=
  match x with NInt z => float_of_int z | NFloat f => Ok f end.

(** [x * y] *)
Definition py_mul (x y : num) : res num :=
  match x, y with
  | NInt a, NInt b => Ok (NInt (a * b))
  | _, _ => let* f := to_float x in let* g := to_float y in Ok (NFloat (fmul f g))
  end.

(** [x / y] *)
Definition py_truediv (x y : num) : res num :=
  match x, y with
  | NInt a, NInt b => let* f := int_truediv a b in Ok (NFloat f)
  | _, _ => let* f := to_float x in let* g := to_float y in
            let* r := float_div f g in Ok (NFloat r)
  end.

(** [int(x)] *)
Definition py_int (x : num) : res Z :=
  match x with NInt z => Ok z | NFloat f => int_of_float f end.

(** [min(a, b)] on two [float]s: [b] when [b < a], else [a]. *)
Definition py_min (a b : float) : float := if fltb b a then b else a.

(** ** Constants *)

Definition min_tick : Z := -887272.
Definition max_tick : Z := 887272.
Definition q96 : Z := 2 ^ 96.
Definition eth : Z := 10 ^ 18.

(** The literal [1.0001]. *)
Definition f1_0001 : float := round_ratio false 10001 10000.

(** ** [math.sqrt] and [math.log] *)

(** [math.sqrt(x)] ([math_1] over the correctly rounded [sqrt]): a NaN
    result from a non-NaN argument raises [ValueError]. *)
Definition math_sqrt (x : num) : res float :=
  let* f := to_float x in
  match fsqrt f, f with
  | S754_nan, S754_nan => Ok S754_nan
  | S754_nan, _ => Err ValueError
  | r, _ => Ok r
  end.

Section Libm.

(** The platform's [log] on positive finite doubles, and CPython's
    [frexp]-based logarithm of a positive [int] too large for a double:
    neither is specified to the bit. *)
Variable c_log : float -> float.
Variable log_big_int : Z -> float.

(** C's [log] with its IEEE special cases ([m_log]). *)
Definition m_log (f : float) : float :=
  match f with
  | S754_finite false _ _ => c_log f
  | S754_zero _ => S754_infinity true
  | S754_finite true _ _ => S754_nan
  | S754_infinity false => f
  | S754_infinity true => S754_nan
  | S754_nan => S754_nan
  end.

Definition is_finite (f : float) : bool :=
  match f with S754_zero _ | S754_finite _ _ _ => true | _ => false end.

Definition is_nan (f : float) : bool :=
  match f with S754_nan => true | _ => false end.

Definition is_inf (f : float) : bool :=
  match f with S754_infinity _ => true | _ => false end.

(** [math_1(x, m_log, can_overflow = 0)]: NaN out of non-NaN in, or an
    infinity out of a finite in, raises [ValueError]. *)
Definition math_1_log (f : float) : res float :=
  let r := m_log f in
  if is_nan r && negb (is_nan f) then Err ValueError
  else if is_inf r && is_finite f then Err ValueError
  else Ok r.

(** [loghelper(x, m_log)]: an [int] must be positive. *)
Definition loghelper (x : num) : res float :=
  match x with
  | NInt z =>
      if z <=? 0 then Err ValueError
      else match float_of_int z with
           | Ok f => math_1_log f
           | Err _ => Ok (log_big_int z)
           end
  | NFloat f => math_1_log f
  end.

(** [math.log(x, base)] = [loghelper(x) / loghelper(base)]. *)
Definition math_log (x base : num) : res float :=
  let* n := loghelper x in
  let* d := loghelper base in
  float_div n d.

(** [price_to_tick(p) = math.floor(math.log(p, 1.0001))] *)
Definition price_to_tick (p : num) : res Z :=
  let* l := math_log p (NFloat f1_0001) in
  float_floor l.

End Libm.

(** [price_to_sqrtp(p) = int(math.sqrt(p) * q96)] *)
Definition price_to_sqrtp (p : num) : res Z :=
  let* s := math_sqrt p in
  let* m := py_mul (NFloat s) (NInt q96) in
  py_int m.

(** ** Liquidity and amounts *)

(** [if pa > pb: pa, pb = pb, pa] *)
Definition order (pa pb : Z) : Z * Z := if pb <? pa then (pb, pa) else (pa, pb).

(** [liquidity0]: [(amount * (pa * pb) / q96) / (pb - pa)] *)
Definition liquidity0 (amount : num) (pa pb : Z) : res num :=
  let '(pa, pb) := order pa pb in
  let* x := py_mul amount (NInt (pa * pb)) in
  let* y := py_truediv x (NInt q96) in
  py_truediv y (NInt (pb - pa)).

(** [liquidity1]: [amount * q96 / (pb - pa)] *)
Definition liquidity1 (amount : num) (pa pb : Z) : res num :=
  let '(pa, pb) := order pa pb in
  let* x := py_mul amount (NInt q96) in
  py_truediv x (NInt (pb - pa)).

(** [calc_amount0]: [int(liq * q96 * (pb - pa) / pb / pa)] *)
Definition calc_amount0 (liq : num) (pa pb : Z) : res Z :=
  let '(pa, pb) := order pa pb in
  let* x := py_mul liq (NInt q96) in
  let* y := py_mul x (NInt (pb - pa)) in
  let* z := py_truediv y (NInt pb) in
  let* w := py_truediv z (NInt pa) in
  py_int w.

(** [calc_amount1]: [int(liq * (pb - pa) / q96)] *)
Definition calc_amount1 (liq : num) (pa pb : Z) : res Z :=
  let '(pa, pb) := order pa pb in
  let* x := py_mul liq (NInt (pb - pa)) in
  let* y := py_truediv x (NInt q96) in
  py_int y.

(** ** Liquidity provision (lines 254-273) *)

(** [liq = int(min(liquidity0(amount_eth, sqrtp_cur, sqrtp_upp),
                   liquidity1(amount_usdc, sqrtp_cur, sqrtp_low)))] *)
Definition provision (amount_eth amount_usdc sqrtp_low sqrtp_cur sqrtp_upp : Z) : res Z :=
  let* liq0 := liquidity0 (NInt amount_eth) sqrtp_cur sqrtp_upp in
  let* liq1 := liquidity1 (NInt amount_usdc) sqrtp_cur sqrtp_low in
  let* a := to_float liq0 in
  let* b := to_float liq1 in
  int_of_float (py_min a b).

(** ** Swap steps with an integer input amount *)

(** Selling asset1 (lines 295-296):
    [price_next = sqrtp_cur + (amount_in * q96) // liq] *)
Definition sell_asset1_price_next (liq sqrtp_cur amount_in : Z) : res Z :=
  let* price_diff := int_floordiv (amount_in * q96) liq in
  Ok (sqrtp_cur + price_diff).

(** Selling asset0 (line 329):
    [price_next = int((liq * q96 * sqrtp_cur) // (liq * q96 + amount_in * sqrtp_cur))];
    [int] of an [int] is the identity. *)
Definition sell_asset0_price_next (liq sqrtp_cur amount_in : Z) : res Z :=
  let* q := int_floordiv (liq * q96 * sqrtp_cur) (liq * q96 + amount_in * sqrtp_cur) in
  py_int (NInt q).

Record swap_result := { price_next : Z; amount_in : Z; amount_out : Z }.

(** Lines 295-306: asset1 in, asset0 out. *)
Definition swap_sell_asset1 (liq sqrtp_cur amount : Z) : res swap_result :=
  let* pn := sell_asset1_price_next liq sqrtp_cur amount in
  let* ain := calc_amount1 (NInt liq) pn sqrtp_cur in
  let* aout := calc_amount0 (NInt liq) pn sqrtp_cur in
  Ok {| price_next := pn; amount_in := ain; amount_out := aout |}.

(** Lines 329-338: asset0 in, asset1 out. *)
Definition swap_sell_asset0 (liq sqrtp_cur amount : Z) : res swap_result :=
  let* pn := sell_asset0_price_next liq sqrtp_cur amount in
  let* ain := calc_amount0 (NInt liq) pn sqrtp_cur in
  let* aout := calc_amount1 (NInt liq) pn sqrtp_cur in
  Ok {| price_next := pn; amount_in := ain; amount_out := aout |}.

(** The example's prices, as [price_to_sqrtp] computes them. *)
Definition sqrtp_low : Z := 5341294542274603406682713227264.
Definition sqrtp_cur : Z := 5602277097478614198912276234240.
Definition sqrtp_upp : Z := 5875717789736564987741329162240.

(** ** [sqrtp_to_price] (lines 75-92) *)

(** The literals [1.0] and [2.0]. *)
Definition float_one : float := S754_finite false 4503599627370496 (-52).
Definition float_two : float := S754_finite false 4503599627370496 (-51).

Section Pow.

(** The platform's [pow] on a positive finite base other than [1.0] and
    a finite non-zero exponent: not specified to the bit. *)
Variable c_pow : float -> float -> float.

(** CPython's [float_pow(iv, 2.0)]: the special cases it settles itself
    ([nan], infinities, zeros, a negative base raised to an even integer,
    [1.0]), then [pow], whose infinite result raises [OverflowError]. *)
Definition float_pow2 (iv : float) : res float :=
  match iv with
  | S754_nan => Ok S754_nan
  | S754_infinity _ => Ok (S754_infinity false)
  | S754_zero _ => Ok (S754_zero false)
  | S754_finite _ m e =>
      let v := S754_finite false m e in
      if SFeqb v float_one then Ok float_one
      else let ix := c_pow v float_two in
           if is_inf ix then Err OverflowError else Ok ix
  end.

(** [sqrtp_to_price(sqrtp) = (sqrtp / q96) ** 2] *)
Definition sqrtp_to_price (sqrtp : Z) : res float :=
  let* x := int_truediv sqrtp q96 in
  float_pow2 x.

(** CPython's [float_pow(1.0001, iw)]: [1.0] for a zero exponent, [nan]
    for [nan], [inf] for [+inf] and [0.0] for [-inf] (the base exceeds
    [1.0]), else [pow], whose infinite result raises [OverflowError]. *)
Definition pow_1_0001 (iw : float) : res float :=
  match iw with
  | S754_zero _ => Ok float_one
  | S754_nan => Ok S754_nan
  | S754_infinity false => Ok (S754_infinity false)
  | S754_infinity true => Ok (S754_zero false)
  | S754_finite _ _ _ =>
      let ix := c_pow f1_0001 iw in
      if is_inf ix then Err OverflowError else Ok ix
  end.

(** ** [tick_to_sqrtp] (lines 95-110) *)

(** [tick_to_sqrtp(t) = int((1.0001 ** (t / 2)) * q96)] *)
Definition tick_to_sqrtp (t : Z) : res Z :=
  let* y := int_truediv t 2 in
  let* x := pow_1_0001 y in
  let* m := py_mul (NFloat x) (NInt q96) in
  py_int m.

End Pow.

(** [price_to_tick(sqrtp_to_price(tick_to_sqrtp(t)))], with one platform
    [pow] and [log] throughout. *)
Definition tick_round_trip c_pow c_log log_big_int (t : Z) : res Z :=
  let* s := tick_to_sqrtp c_pow t in
  let* p := sqrtp_to_price c_pow s in
  price_to_tick c_log log_big_int (NFloat p).

(** The real number a finite float denotes ([0] for the others). *)
Definition B2R (f : float) : R :=
  match f with
  | S754_finite s m e => (IZR (cond_Zopp s (Zpos m)) * powerRZ 2 e)%R
  | _ => 0%R
  end.

(** A platform [pow] or [log] result [r] for the exact value [v]: a finite
    binary64 number within relative error [2^-30] of [v] (a correctly
    rounded one is within [2^-53]). *)
Definition eps30 : R := (/ 1073741824)%R.

Definition libm_accurate (r : float) (v : R) : Prop :=
  valid_binary prec emax r = true /\ is_finite r = true /\
  (Rabs (B2R r - v) <= eps30 * Rabs v)%R.

(** The platform [pow(1.0001, t / 2)] that [tick_to_sqrtp] calls at tick
    [t] is accurate. *)
Definition pow_accurate_at (c_pow : float -> float -> float) (t : Z) : Prop :=
  forall y, int_truediv t 2 = Ok y ->
    libm_accurate (c_pow f1_0001 y) (Rpower (B2R f1_0001) (B2R y)).

(** Every platform [pow] and [log] call the round trip at tick [t] makes
    is accurate: [pow(1.0001, t / 2)], [pow(x, 2.0)] in [sqrtp_to_price],
    [log] of the price and [log(1.0001)]. *)
Definition round_trip_accurate c_pow c_log (t : Z) : Prop :=
  pow_accurate_at c_pow t /\
  (forall s x, tick_to_sqrtp c_pow t = Ok s -> int_truediv s q96 = Ok x ->
     libm_accurate (c_pow x float_two) (B2R x * B2R x)%R) /\
  (forall s p, tick_to_sqrtp c_pow t = Ok s -> sqrtp_to_price c_pow s = Ok p ->
     libm_accurate (c_log p) (ln (B2R p))) /\
  libm_accurate (c_log f1_0001) (ln (B2R f1_0001)).

(** ** Rounding: signs and non-zero results *)

(** [f] is not NaN and, unless it is a zero, has sign [s]. *)
Definition has_sign (s : bool) (f : float) : Prop :=
  match f with
  | S754_zero _ => True
  | S754_infinity s' | S754_finite s' _ _ => s' = s
  | S754_nan => False
  end.

(** [f] is a non-zero finite float or an infinity of sign [s]. *)
Definition nonzero_sign (s : bool) (f : float) : Prop :=
  match f with
  | S754_infinity s' | S754_finite s' _ _ => s' = s
  | _ => False
  end.

Lemma iter_pos_invariant {A} (P : A -> Prop) (f : A -> A) :
  (forall x, P x -> P (f x)) -> forall n x, P x -> P (iter_pos f n x).
Proof. intros Hf n; induction n; intros x Hx; simpl; auto. Qed.

Lemma shr_1_m r : 0 <= shr_m r -> shr_m (shr_1 r) = Z.div2 (shr_m r).
Proof.
  destruct r as [m rr ss]; simpl; intros H.
  destruct m as [|[p|p|]|p]; simpl; try reflexivity; lia.
Qed.

Lemma shr_1_nonneg r : 0 <= shr_m r -> 0 <= shr_m (shr_1 r).
Proof.
  intros H; rewrite (shr_1_m r H).
  rewrite Z.div2_spec; apply Z.shiftr_nonneg; exact H.
Qed.

Lemma iter_shr_1_m n r :
  0 <= shr_m r -> shr_m (iter_pos shr_1 n r) = Z.shiftr (shr_m r) (Zpos n).
Proof.
  revert r; induction n as [n IH|n IH|]; intros r H; simpl.
  - assert (H1 : 0 <= shr_m (iter_pos shr_1 n (shr_1 r))).
    { apply iter_pos_invariant; auto using shr_1_nonneg. }
    rewrite (IH _ H1), (IH _ (shr_1_nonneg r H)), (shr_1_m r H), Z.div2_spec.
    rewrite !Z.shiftr_shiftr by lia. f_equal; lia.
  - assert (H1 : 0 <= shr_m (iter_pos shr_1 n r)).
    { apply iter_pos_invariant; auto using shr_1_nonneg. }
    rewrite (IH _ H1), (IH _ H).
    rewrite Z.shiftr_shiftr by lia. f_equal; lia.
  - rewrite (shr_1_m r H), Z.div2_spec. reflexivity.
Qed.

Lemma shr_record_of_loc_m m l : shr_m (shr_record_of_loc m l) = m.
Proof. destruct l as [|[| |]]; reflexivity. Qed.

Lemma shr_fexp_nonneg m e l :
  0 <= m -> 0 <= shr_m (fst (shr_fexp prec emax m e l)).
Proof.
  intros H; unfold shr_fexp, shr.
  destruct (fexp prec emax (Zdigits2 m + e) - e); simpl;
    try (rewrite shr_record_of_loc_m; exact H).
  apply iter_pos_invariant; [exact shr_1_nonneg|].
  rewrite shr_record_of_loc_m; exact H.
Qed.

Lemma shr_fexp_exp m e l : e <= snd (shr_fexp prec emax m e l).
Proof.
  unfold shr_fexp, shr.
  destruct (fexp prec emax (Zdigits2 m + e) - e) eqn:E; simpl; lia.
Qed.

Lemma digits2_pos_bound m : 2 ^ (Zpos (digits2_pos m) - 1) <= Zpos m.
Proof.
  induction m as [m IH|m IH|]; cbn [digits2_pos]; try (simpl; lia);
    rewrite Pos2Z.inj_succ;
    replace (Z.succ (Zpos (digits2_pos m)) - 1)
      with (Zpos (digits2_pos m) - 1 + 1) by lia;
    rewrite Z.pow_add_r by lia; lia.
Qed.

Lemma shr_fexp_pos m e l :
  0 < m -> emin prec emax <= e -> 0 < shr_m (fst (shr_fexp prec emax m e l)).
Proof.
  intros Hm He; unfold shr_fexp, shr.
  destruct (fexp prec emax (Zdigits2 m + e) - e) as [|p|p] eqn:E; simpl;
    try (rewrite shr_record_of_loc_m; exact Hm).
  rewrite iter_shr_1_m by (rewrite shr_record_of_loc_m; lia).
  rewrite shr_record_of_loc_m, Z.shiftr_div_pow2 by lia.
  destruct m as [|m|m]; try lia.
  pose proof (digits2_pos_bound m) as Hd.
  unfold fexp, Zdigits2, emin, prec in *.
  apply Z.div_str_pos; split; [lia|].
  eapply Z.le_trans; [|exact Hd].
  apply Z.pow_le_mono_r; lia.
Qed.

Lemma round_nearest_even_ge m l : 0 <= m -> m <= round_nearest_even m l.
Proof.
  intros H; unfold round_nearest_even.
  destruct l as [|[| |]]; try destruct (Z.even m); lia.
Qed.

Lemma binary_round_aux_sign s mx ex lx :
  0 <= mx -> has_sign s (binary_round_aux prec emax s mx ex lx).
Proof.
  intros H; unfold binary_round_aux.
  pose proof (shr_fexp_nonneg mx ex lx H) as H1.
  destruct (shr_fexp prec emax mx ex lx) as [r1 e1]; simpl in H1.
  pose proof (round_nearest_even_ge (shr_m r1) (loc_of_shr_record r1) H1) as H2.
  pose proof (shr_fexp_nonneg (round_nearest_even (shr_m r1) (loc_of_shr_record r1))
                e1 loc_Exact ltac:(lia)) as H3.
  destruct (shr_fexp prec emax _ e1 loc_Exact) as [r3 e3]; simpl in H3.
  destruct (shr_m r3) as [|p|p]; simpl.
  - exact I.
  - destruct (Z.leb _ _); reflexivity.
  - lia.
Qed.

Lemma binary_round_aux_nonzero s mx ex lx :
  0 < mx -> emin prec emax <= ex ->
  nonzero_sign s (binary_round_aux prec emax s mx ex lx).
Proof.
  intros H He; unfold binary_round_aux.
  pose proof (shr_fexp_pos mx ex lx H He) as H1.
  pose proof (shr_fexp_exp mx ex lx) as He1.
  destruct (shr_fexp prec emax mx ex lx) as [r1 e1]; simpl in H1, He1.
  pose proof (round_nearest_even_ge (shr_m r1) (loc_of_shr_record r1) ltac:(lia)) as H2.
  pose proof (shr_fexp_pos (round_nearest_even (shr_m r1) (loc_of_shr_record r1))
                e1 loc_Exact ltac:(lia) ltac:(lia)) as H3.
  destruct (shr_fexp prec emax _ e1 loc_Exact) as [r3 e3]; simpl in H3.
  destruct (shr_m r3) as [|p|p]; simpl; try lia.
  destruct (Z.leb _ _); reflexivity.
Qed.

Lemma shl_align_exp mx ex ex' :
  snd (shl_align mx ex ex') = ex \/ snd (shl_align mx ex ex') = ex'.
Proof. unfold shl_align; destruct (ex' - ex); simpl; auto. Qed.

Lemma binary_normalize_int z :
  z <> 0 -> nonzero_sign (z <? 0) (binary_normalize prec emax z 0 false).
Proof.
  intros Hz; destruct z as [|p|p]; [lia| |]; simpl binary_normalize;
    unfold binary_round;
    pose proof (shl_align_exp p 0 (fexp prec emax (Zpos (digits2_pos p) + 0))) as He;
    destruct (shl_align p 0 _) as [mz ez]; simpl in He;
    apply binary_round_aux_nonzero; try lia;
    unfold fexp, emin, prec, emax in *; lia.
Qed.

Lemma float_of_int_nonzero z f :
  z <> 0 -> float_of_int z = Ok f -> exists m e, f = S754_finite (z <? 0) m e.
Proof.
  intros Hz H; unfold float_of_int in H.
  pose proof (binary_normalize_int z Hz) as Hn.
  destruct (binary_normalize prec emax z 0 false) as [s|s| |s m e];
    simpl in Hn; try contradiction; try discriminate.
  injection H as <-; subst; eauto.
Qed.

Lemma float_of_int_zero : float_of_int 0 = Ok (S754_zero false).
Proof. reflexivity. Qed.

Lemma SFdiv_core_nonneg m1 e1 m2 e2 :
  0 <= m1 -> 0 < m2 -> 0 <= fst (fst (SFdiv_core_binary prec emax m1 e1 m2 e2)).
Proof.
  intros H1 H2; unfold SFdiv_core_binary.
  match goal with |- context [Z.div_eucl ?a m2] =>
    assert (Ha : 0 <= a);
    [ | pose proof (Z.div_pos a m2 Ha H2) as Hq; unfold Z.div in Hq;
        destruct (Z.div_eucl a m2) as [q r]; simpl in *; exact Hq ]
  end.
  destruct (e1 - e2 - _); [exact H1 | apply Z.shiftl_nonneg; exact H1 | lia].
Qed.

Lemma round_ratio_sign s a b : 0 <= a -> 0 < b -> has_sign s (round_ratio s a b).
Proof.
  intros Ha Hb; unfold round_ratio.
  destruct (a =? 0); [exact I|].
  pose proof (SFdiv_core_nonneg a 0 b 0 Ha Hb) as Hq.
  destruct (SFdiv_core_binary prec emax a 0 b 0) as [[mz ez] lz]; simpl in Hq.
  apply binary_round_aux_sign; exact Hq.
Qed.

Lemma int_truediv_sign a b f :
  0 <= a -> 0 < b -> int_truediv a b = Ok f -> has_sign false f.
Proof.
  intros Ha Hb H; unfold int_truediv in H.
  replace (b =? 0) with false in H by (symmetry; apply Z.eqb_neq; lia).
  replace (a <? 0) with false in H by (symmetry; apply Z.ltb_ge; lia).
  replace (b <? 0) with false in H by (symmetry; apply Z.ltb_ge; lia).
  rewrite Z.abs_eq in H by lia; rewrite Z.abs_eq in H by lia.
  pose proof (round_ratio_sign false a b Ha Hb) as Hs.
  simpl xorb in H; destruct (round_ratio false a b); simpl in H; try discriminate; inversion H; subst; exact Hs.
Qed.

Lemma fdiv_sign f m e :
  has_sign false f -> has_sign false (fdiv f (S754_finite false m e)).
Proof.
  intros H; unfold fdiv, SFdiv.
  destruct f as [s|s| |s mf ef]; simpl in H; try contradiction; subst; simpl; auto.
  pose proof (SFdiv_core_nonneg (Zpos mf) ef (Zpos m) e ltac:(lia) ltac:(lia)) as Hq.
  destruct (SFdiv_core_binary prec emax (Zpos mf) ef (Zpos m) e) as [[mz ez] lz].
  apply binary_round_aux_sign; exact Hq.
Qed.

Lemma int_of_float_nonneg f z : has_sign false f -> int_of_float f = Ok z -> 0 <= z.
Proof.
  intros Hs H; destruct f as [s|s| |s m e]; simpl in *; try discriminate.
  - injection H as <-; lia.
  - subst; injection H as <-.
    destruct (0 <=? e).
    + apply Z.shiftl_nonneg; lia.
    + apply Z.shiftr_nonneg; lia.
Qed.

Lemma order_spec pa pb : order pa pb = (Z.min pa pb, Z.max pa pb).
Proof.
  unfold order; destruct (pb <? pa) eqn:E;
    [apply Z.ltb_lt in E | apply Z.ltb_ge in E]; f_equal; lia.
Qed.

Lemma order_comm pa pb : order pa pb = order pb pa.
Proof. rewrite !order_spec; f_equal; lia. Qed.

(** [calc_amount0] on an integer liquidity never reports a negative amount. *)
Lemma calc_amount0_nonneg liq pa pb z :
  0 <= liq -> 0 <= pa -> 0 <= pb -> calc_amount0 (NInt liq) pa pb = Ok z -> 0 <= z.
Proof.
  intros Hl Ha Hb H.
  unfold calc_amount0, py_mul, py_truediv, py_int, to_float in H.
  rewrite order_spec in H; simpl in H.
  set (lo := Z.min pa pb) in *; set (hi := Z.max pa pb) in *.
  assert (Hlo : 0 <= lo) by lia; assert (Hhi : lo <= hi) by lia.
  destruct (int_truediv (liq * q96 * (hi - lo)) hi) as [f|] eqn:E;
    simpl in H; [|discriminate H].
  destruct (Z.eq_dec hi 0) as [E0|E0].
  { unfold int_truediv in E; rewrite E0 in E; discriminate. }
  assert (Hq : 0 <= liq * q96 * (hi - lo)) by (unfold q96; nia).
  pose proof (int_truediv_sign _ hi f Hq ltac:(lia) E) as Hf.
  destruct (float_of_int lo) as [g|] eqn:E1; simpl in H; [|discriminate H].
  destruct (Z.eq_dec lo 0) as [L0|L0].
  { rewrite L0, float_of_int_zero in E1.
    injection E1 as <-; simpl in H; discriminate. }
  destruct (float_of_int_nonzero lo g L0 E1) as (m & e & ->).
  replace (lo <? 0) with false in H by (symmetry; apply Z.ltb_ge; lia).
  simpl in H.
  apply (int_of_float_nonneg (fdiv f (S754_finite false m e))); auto using fdiv_sign.
Qed.

(** [calc_amount1] on an integer liquidity never reports a negative amount. *)
Lemma calc_amount1_nonneg liq pa pb z :
  0 <= liq -> calc_amount1 (NInt liq) pa pb = Ok z -> 0 <= z.
Proof.
  intros Hl H.
  unfold calc_amount1, py_mul, py_truediv, py_int in H.
  rewrite order_spec in H; simpl in H.
  destruct (int_truediv _ q96) as [f|] eqn:E; simpl in H; [|discriminate H].
  apply (int_of_float_nonneg f); auto.
  apply (int_truediv_sign (liq * (Z.max pa pb - Z.min pa pb)) q96); auto.
  - nia.
  - unfold q96; lia.
Qed.

(** ** Swap-step prices *)

Lemma sell_asset1_price_next_eq liq p a :
  0 < liq -> sell_asset1_price_next liq p a = Ok (p + a * 2 ^ 96 / liq).
Proof.
  intros Hl; unfold sell_asset1_price_next, int_floordiv, q96.
  replace (liq =? 0) with false by (symmetry; apply Z.eqb_neq; lia).
  reflexivity.
Qed.

Lemma sell_asset0_price_next_eq liq p a :
  0 < liq -> 0 < p -> 0 <= a ->
  sell_asset0_price_next liq p a = Ok (liq * 2 ^ 96 * p / (liq * 2 ^ 96 + a * p)).
Proof.
  intros Hl Hp Ha; unfold sell_asset0_price_next, int_floordiv, q96.
  replace (liq * 2 ^ 96 + a * p =? 0) with false
    by (symmetry; apply Z.eqb_neq; assert (0 < 2 ^ 96) by lia; nia).
  reflexivity.
Qed.

(** ** Error lemmas *)

Lemma float_of_int_err z e : float_of_int z = Err e -> e = OverflowError.
Proof.
  unfold float_of_int; destruct (binary_normalize prec emax z 0 false);
    intros H; inversion H; reflexivity.
Qed.

Lemma int_truediv_err a b e : b <> 0 -> int_truediv a b = Err e -> e = OverflowError.
Proof.
  intros Hb; unfold int_truediv.
  replace (b =? 0) with false by (symmetry; apply Z.eqb_neq; exact Hb).
  destruct (round_ratio _ _ _); intros H; inversion H; reflexivity.
Qed.

Lemma int_truediv_zero b : 0 < b -> int_truediv 0 b = Ok (S754_zero false).
Proof.
  intros Hb; unfold int_truediv.
  replace (b =? 0) with false by (symmetry; apply Z.eqb_neq; lia).
  replace (b <? 0) with false by (symmetry; apply Z.ltb_ge; lia).
  reflexivity.
Qed.

Lemma order_diag a : order a a = (a, a).
Proof. unfold order; rewrite Z.ltb_irrefl; reflexivity. Qed.

Definition q96_float : float := S754_finite false 4503599627370496 44.

Lemma float_of_int_q96 : float_of_int q96 = Ok q96_float.
Proof. vm_compute; reflexivity. Qed.

(** A price that is zero or negative: an [int] at most [0], or a float
    that is a zero, negative, or minus infinity. *)
Definition nonpos_num (x : num) : Prop :=
  match x with
  | NInt z => z <= 0
  | NFloat (S754_zero _) | NFloat (S754_infinity true)
  | NFloat (S754_finite true _ _) => True
  | NFloat _ => False
  end.

(** A negative float, minus infinity included. *)
Definition neg_float (f : float) : Prop :=
  match f with
  | S754_infinity true | S754_finite true _ _ => True
  | _ => False
  end.

(** ** Domain behaviour of the conversions and of zero-width ranges *)

Lemma price_to_tick_nonpos c_log log_big_int p :
  nonpos_num p -> price_to_tick c_log log_big_int p = Err ValueError.
Proof.
  unfold price_to_tick, math_log, loghelper.
  destruct p as [z|[s|[]| |[] m e]]; simpl; intros H; try contradiction;
    try reflexivity.
  replace (z <=? 0) with true by (symmetry; apply Z.leb_le; exact H).
  reflexivity.
Qed.

Lemma price_to_sqrtp_neg_float f : neg_float f -> price_to_sqrtp (NFloat f) = Err ValueError.
Proof.
  destruct f as [s|[]| |[] m e]; simpl; intros H; try contradiction; reflexivity.
Qed.

Lemma price_to_sqrtp_neg_int z :
  z < 0 -> price_to_sqrtp (NInt z) = Err ValueError \/ price_to_sqrtp (NInt z) = Err OverflowError.
Proof.
  intros Hz; unfold price_to_sqrtp, math_sqrt, to_float.
  destruct (float_of_int z) as [f|e] eqn:E; simpl.
  - destruct (float_of_int_nonzero z f ltac:(lia) E) as (m & e & ->).
    replace (z <? 0) with true by (symmetry; apply Z.ltb_lt; exact Hz).
    left; reflexivity.
  - right; rewrite (float_of_int_err z e E); reflexivity.
Qed.

Lemma price_to_sqrtp_zero :
  price_to_sqrtp (NInt 0) = Ok 0 /\ forall s, price_to_sqrtp (NFloat (S754_zero s)) = Ok 0.
Proof. split; [|intros []]; vm_compute; reflexivity. Qed.

Lemma liquidity1_zero_width x a : liquidity1 x a a = Err ZeroDivisionError.
Proof.
  unfold liquidity1; rewrite order_diag, Z.sub_diag.
  unfold py_mul, py_truediv, to_float.
  destruct x as [z|f]; [reflexivity|].
  rewrite float_of_int_q96; reflexivity.
Qed.

Lemma liquidity0_zero_width x a :
  liquidity0 x a a = Err ZeroDivisionError \/ liquidity0 x a a = Err OverflowError.
Proof.
  unfold liquidity0; rewrite order_diag, Z.sub_diag.
  unfold py_mul, py_truediv, to_float.
  destruct x as [z|f].
  - cbn [bind].
    destruct (int_truediv (z * (a * a)) q96) as [f|e] eqn:E; simpl.
    + left; reflexivity.
    + right; rewrite (int_truediv_err (z * (a * a)) q96 e ltac:(unfold q96; lia) E); reflexivity.
  - destruct (float_of_int (a * a)) as [g|e] eqn:E; simpl.
    + rewrite ?float_of_int_q96; left; reflexivity.
    + right; rewrite (float_of_int_err _ e E); reflexivity.
Qed.

Lemma calc_amount0_zero_width l a :
  0 < a -> calc_amount0 (NInt l) a a = Ok 0 \/ calc_amount0 (NInt l) a a = Err OverflowError.
Proof.
  intros Ha; unfold calc_amount0; rewrite order_diag, Z.sub_diag.
  unfold py_mul, py_truediv, py_int, to_float.
  cbn [bind]; rewrite Z.mul_0_r.
  rewrite (int_truediv_zero a Ha); cbn [bind].
  destruct (float_of_int a) as [g|e] eqn:E; simpl.
  - destruct (float_of_int_nonzero a g ltac:(lia) E) as (m & e & ->).
    replace (a <? 0) with false by (symmetry; apply Z.ltb_ge; lia).
    left; reflexivity.
  - right; rewrite (float_of_int_err _ _ E); reflexivity.
Qed.

Lemma calc_amount1_zero_width l a : calc_amount1 (NInt l) a a = Ok 0.
Proof.
  unfold calc_amount1; rewrite order_diag, Z.sub_diag; cbn [py_mul bind].
  rewrite Z.mul_0_r; vm_compute; reflexivity.
Qed.

(** ** Float results that stay below the overflow threshold *)

Lemma digits2_pos_size p : digits2_pos p = Pos.size p.
Proof. induction p as [p IH|p IH|]; simpl; rewrite ?IH; reflexivity. Qed.

Lemma digits2_pos_upper m : Zpos m < 2 ^ Zpos (digits2_pos m).
Proof.
  rewrite digits2_pos_size.
  assert (H : Zpos m < Zpos (2 ^ Pos.size m)) by exact (Pos.size_gt m).
  rewrite Pos2Z.inj_pow in H; exact H.
Qed.

(** A positive [m] below [2^k] has at most [k] binary digits. *)
Lemma Zdigits2_le m k : 0 <= m -> m < 2 ^ k -> Zdigits2 m <= k.
Proof.
  intros H0 H; destruct m as [|p|p]; simpl; [| |lia].
  { destruct (Z.le_gt_cases 0 k) as [|Hk]; [lia|].
    rewrite Z.pow_neg_r in H by lia; lia. }
  pose proof (digits2_pos_bound p) as Hb.
  destruct (Z.le_gt_cases (Zpos (digits2_pos p)) k) as [|Hk]; [assumption|].
  assert (2 ^ k <= 2 ^ (Zpos (digits2_pos p) - 1)) by (apply Z.pow_le_mono_r; lia).
  lia.
Qed.

Lemma shr_fexp_spec m e l :
  0 <= m ->
  snd (shr_fexp prec emax m e l) = Z.max e (fexp prec emax (Zdigits2 m + e)) /\
  shr_m (fst (shr_fexp prec emax m e l)) = Z.shiftr m (snd (shr_fexp prec emax m e l) - e).
Proof.
  intros Hm; unfold shr_fexp, shr.
  destruct (fexp prec emax (Zdigits2 m + e) - e) as [|n|n] eqn:E; simpl.
  - rewrite shr_record_of_loc_m, Z.sub_diag, Z.shiftr_0_r; split; [lia|reflexivity].
  - rewrite iter_shr_1_m by (rewrite shr_record_of_loc_m; exact Hm).
    rewrite shr_record_of_loc_m; split; [lia|f_equal; lia].
  - rewrite shr_record_of_loc_m, Z.sub_diag, Z.shiftr_0_r; split; [lia|reflexivity].
Qed.

Lemma round_nearest_even_le m l : m <= round_nearest_even m l <= m + 1.
Proof. unfold round_nearest_even; destruct l as [|[| |]]; try destruct (Z.even m); lia. Qed.

(** Rounding a value below [2^1023] never overflows. *)
Lemma binary_round_aux_finite sx mx ex lx :
  0 <= mx -> ex <= emax - prec -> mx < 2 ^ (emax - 1 - ex) ->
  is_finite (binary_round_aux prec emax sx mx ex lx) = true.
Proof.
  intros H0 He Hm; unfold emax, prec in He, Hm; unfold binary_round_aux.
  replace (1024 - 1 - ex) with (1023 - ex) in Hm by lia.
  pose proof (shr_fexp_spec mx ex lx H0) as [He1 Hm1].
  destruct (shr_fexp prec emax mx ex lx) as [r1 e1]; simpl in He1, Hm1; cbv beta iota.
  assert (Hd : Zdigits2 mx <= 1023 - ex) by (apply Zdigits2_le; lia).
  assert (He1b : ex <= e1 <= 971)
    by (rewrite He1; unfold fexp, emin, prec, emax; lia).
  assert (Hr1 : 0 <= shr_m r1 < 2 ^ (1023 - e1)).
  { rewrite Hm1, Z.shiftr_div_pow2 by lia; split; [apply Z.div_pos; lia|].
    apply Z.div_lt_upper_bound; [lia|].
    rewrite <- Z.pow_add_r by lia; replace (e1 - ex + (1023 - e1)) with (1023 - ex) by lia.
    exact Hm. }
  set (r := round_nearest_even (shr_m r1) (loc_of_shr_record r1)).
  assert (Hr : 0 <= r <= 2 ^ (1023 - e1))
    by (pose proof (round_nearest_even_le (shr_m r1) (loc_of_shr_record r1)); unfold r; lia).
  pose proof (shr_fexp_spec r e1 loc_Exact ltac:(lia)) as [He2 Hm2].
  destruct (shr_fexp prec emax r e1 loc_Exact) as [r2 e2]; simpl in He2, Hm2; cbv beta iota.
  assert (Hdr : Zdigits2 r <= 1024 - e1).
  { apply Zdigits2_le; [lia|].
    apply (Z.le_lt_trans _ (2 ^ (1023 - e1))); [lia|apply Z.pow_lt_mono_r; lia]. }
  assert (He2b : e2 <= 971) by (rewrite He2; unfold fexp, emin, prec, emax; lia).
  assert (Hm2' : 0 <= shr_m r2) by (rewrite Hm2; apply Z.shiftr_nonneg; lia).
  destruct (shr_m r2) as [|p|p]; [reflexivity| |lia].
  unfold emax, prec; replace (e2 <=? 1024 - 53) with true by (symmetry; apply Z.leb_le; lia).
  reflexivity.
Qed.

Lemma pos_iter_xO m k : Zpos (Pos.iter xO m k) = Zpos m * 2 ^ Zpos k.
Proof.
  induction k as [|k IH] using Pos.peano_ind; [simpl; lia|].
  rewrite Pos.iter_succ, Pos2Z.inj_xO, IH, Pos2Z.inj_succ, Z.pow_succ_r by lia; lia.
Qed.

(** [float(z)] succeeds for [|z| < 2^1023]. *)
Lemma float_of_int_ok z :
  Z.abs z < 2 ^ 1023 -> exists f, float_of_int z = Ok f /\ is_finite f = true.
Proof.
  intros Hz; unfold float_of_int.
  assert (H : forall s m, Zpos m < 2 ^ 1023 ->
            is_finite (binary_normalize prec emax (cond_Zopp s (Zpos m)) 0 false) = true).
  { intros s m Hm; unfold binary_normalize.
    replace (match cond_Zopp s (Zpos m) with
             | 0 => S754_zero false | Zpos m0 => binary_round prec emax false m0 0
             | Zneg m0 => binary_round prec emax true m0 0 end)
      with (binary_round prec emax s m 0) by (destruct s; reflexivity).
    unfold binary_round, shl_align.
    destruct (fexp prec emax (Zpos (digits2_pos m) + 0) - 0) as [|k|k] eqn:E; cbv beta iota.
    - apply binary_round_aux_finite; unfold emax, prec; lia.
    - apply binary_round_aux_finite; unfold emax, prec; lia.
    - assert (Hk : fexp prec emax (Zpos (digits2_pos m) + 0) = Zneg k) by lia.
      rewrite Hk; apply binary_round_aux_finite; unfold emax, prec; [lia|lia|].
      rewrite pos_iter_xO; replace (1024 - 1 - Zneg k) with (1023 + Zpos k) by lia.
      rewrite Z.pow_add_r by lia; nia. }
  destruct z as [|m|m].
  - exists (S754_zero false); split; reflexivity.
  - pose proof (H false m ltac:(simpl in Hz; lia)) as Hf; simpl cond_Zopp in Hf.
    destruct (binary_normalize prec emax (Zpos m) 0 false); try discriminate; eauto.
  - pose proof (H true m ltac:(simpl in Hz; lia)) as Hf; simpl cond_Zopp in Hf.
    destruct (binary_normalize prec emax (Zneg m) 0 false); try discriminate; eauto.
Qed.

Lemma SFdiv_core_int m1 m2 :
  0 <= m1 -> 0 < m2 ->
  let e := Z.min (fexp prec emax (Zdigits2 m1 - Zdigits2 m2)) 0 in
  fst (fst (SFdiv_core_binary prec emax m1 0 m2 0)) = m1 * 2 ^ (- e) / m2 /\
  snd (fst (SFdiv_core_binary prec emax m1 0 m2 0)) = e.
Proof.
  intros H1 H2 e; unfold SFdiv_core_binary; cbv zeta.
  rewrite !Z.add_0_r, Z.sub_diag, Z.sub_0_l; fold e.
  assert (He : e <= 0) by (unfold e; lia).
  replace (match - e with Zpos _ => Z.shiftl m1 (- e) | Z0 => m1 | Zneg _ => 0 end)
    with (m1 * 2 ^ (- e)).
  2:{ destruct (- e) eqn:E; [rewrite Z.mul_1_r; reflexivity
      | rewrite Z.shiftl_mul_pow2 by lia; reflexivity | lia]. }
  unfold Z.div; destruct (Z.div_eucl (m1 * 2 ^ (- e)) m2); split; reflexivity.
Qed.

(** [a / b] on [int]s succeeds when [|a / b| < 2^1023]. *)
Lemma int_truediv_ok a b :
  b <> 0 -> Z.abs a < 2 ^ 1023 * Z.abs b ->
  exists f, int_truediv a b = Ok f /\ is_finite f = true.
Proof.
  intros Hb Hab; unfold int_truediv, round_ratio.
  replace (b =? 0) with false by (symmetry; apply Z.eqb_neq; exact Hb).
  destruct (Z.abs a =? 0); [eexists; split; reflexivity|].
  pose proof (SFdiv_core_int (Z.abs a) (Z.abs b) ltac:(lia) ltac:(lia)) as [Hq He].
  destruct (SFdiv_core_binary prec emax (Z.abs a) 0 (Z.abs b) 0) as [[q e] l];
    simpl in Hq, He.
  set (e0 := Z.min (fexp prec emax (Zdigits2 (Z.abs a) - Zdigits2 (Z.abs b))) 0) in *.
  assert (He0 : e0 <= 0) by (unfold e0; lia).
  assert (Hf : is_finite (binary_round_aux prec emax (xorb (a <? 0) (b <? 0)) q e l) = true).
  { apply binary_round_aux_finite; unfold emax, prec.
    - rewrite Hq; apply Z.div_pos; [apply Z.mul_nonneg_nonneg; lia | lia].
    - lia.
    - rewrite Hq, He; apply Z.div_lt_upper_bound; [lia|].
      replace (1024 - 1 - e0) with (1023 + - e0) by lia.
      rewrite Z.pow_add_r by lia.
      pose proof (Z.pow_pos_nonneg 2 (- e0) ltac:(lia) ltac:(lia)); nia. }
  destruct (binary_round_aux prec emax (xorb (a <? 0) (b <? 0)) q e l);
    try discriminate; eauto.
Qed.

(** A positive quotient of positive [int]s below [2^1023] is a positive
    finite float. *)
Lemma int_truediv_pos a b :
  0 < a -> 0 < b < 2 ^ 1023 -> a < 2 ^ 1023 * b ->
  exists m e, int_truediv a b = Ok (S754_finite false m e).
Proof.
  intros Ha Hb Hab.
  destruct (int_truediv_ok a b ltac:(lia) ltac:(lia)) as [f [Hf Hfin]].
  revert Hf; unfold int_truediv, round_ratio.
  replace (b =? 0) with false by (symmetry; apply Z.eqb_neq; lia).
  replace (Z.abs a =? 0) with false by (symmetry; apply Z.eqb_neq; lia).
  replace (xorb (a <? 0) (b <? 0)) with false
    by (replace (a <? 0) with false by (symmetry; apply Z.ltb_ge; lia);
        replace (b <? 0) with false by (symmetry; apply Z.ltb_ge; lia); reflexivity).
  rewrite !Z.abs_eq by lia.
  pose proof (SFdiv_core_int a b ltac:(lia) ltac:(lia)) as [Hq He].
  destruct (SFdiv_core_binary prec emax a 0 b 0) as [[q e] l]; simpl in Hq, He.
  set (e0 := Z.min (fexp prec emax (Zdigits2 a - Zdigits2 b)) 0) in *.
  assert (Hnz : nonzero_sign false (binary_round_aux prec emax false q e l)).
  { apply binary_round_aux_nonzero.
    - rewrite Hq; apply Z.div_str_pos; split; [lia|].
      destruct a as [|pa|]; [lia| |lia]; destruct b as [|pb|]; [lia| |lia].
      pose proof (digits2_pos_bound pa) as H1.
      pose proof (digits2_pos_upper pb) as H2.
      assert (Hd2 : Zdigits2 (Zpos pb) <= 1023) by (apply Zdigits2_le; lia).
      simpl Zdigits2 in e0, Hd2.
      assert (Hs : Zpos (digits2_pos pb) <= Zpos (digits2_pos pa) - 1 + - e0)
        by (unfold e0, fexp, emin, prec, emax; lia).
      assert (2 ^ Zpos (digits2_pos pb) <= 2 ^ (Zpos (digits2_pos pa) - 1) * 2 ^ (- e0)).
      { rewrite <- Z.pow_add_r by lia; apply Z.pow_le_mono_r; lia. }
      assert (0 <= 2 ^ (- e0)) by (apply Z.pow_nonneg; lia).
      nia.
    - rewrite He; unfold e0, fexp, emin, prec, emax; lia. }
  intros Hf.
  destruct (binary_round_aux prec emax false q e l); simpl in Hnz;
    try contradiction; try discriminate; subst; eauto.
Qed.

(** ** The example pool *)

(** The liquidity of the example position (line 273). *)
Definition liq_example : Z := 1517882343751509868544.

(** ** Claims *)

(** C1: for positive liquidity [L], square-root price [p] and integer input
    [a], selling asset1 moves the price to [p + floor(a * 2^96 / L)] and
    selling asset0 to [floor(L * 2^96 * p / (L * 2^96 + a * p))]; these are
    the [price_next] the swap steps report. *)
Theorem sell_price_next_formula (L p a : Z) :
  0 < L -> 0 < p -> 0 < a ->
  sell_asset1_price_next L p a = Ok (p + a * 2 ^ 96 / L) /\
  sell_asset0_price_next L p a = Ok (L * 2 ^ 96 * p / (L * 2 ^ 96 + a * p)) /\
  (forall r, swap_sell_asset1 L p a = Ok r -> price_next r = p + a * 2 ^ 96 / L) /\
  (forall r, swap_sell_asset0 L p a = Ok r ->
     price_next r = L * 2 ^ 96 * p / (L * 2 ^ 96 + a * p)).
Proof.
  intros HL Hp Ha.
  pose proof (sell_asset1_price_next_eq L p a HL) as E1.
  pose proof (sell_asset0_price_next_eq L p a HL Hp ltac:(lia)) as E0.
  split; [exact E1|]; split; [exact E0|]; split; intros r H.
  - unfold swap_sell_asset1 in H; rewrite E1 in H; cbn [bind] in H.
    destruct (calc_amount1 _ _ _); [|discriminate H]; cbn [bind] in H.
    destruct (calc_amount0 _ _ _); [|discriminate H]; cbn [bind] in H.
    injection H as <-; reflexivity.
  - unfold swap_sell_asset0 in H; rewrite E0 in H; cbn [bind] in H.
    destruct (calc_amount0 _ _ _); [|discriminate H]; cbn [bind] in H.
    destruct (calc_amount1 _ _ _); [|discriminate H]; cbn [bind] in H.
    injection H as <-; reflexivity.
Qed.

Lemma sell_price_next_formula_witness :
  sell_asset1_price_next liq_example sqrtp_cur (42 * eth)
    = Ok (sqrtp_cur + 42 * eth * 2 ^ 96 / liq_example) /\
  sell_asset0_price_next liq_example sqrtp_cur (42 * eth)
    = Ok (liq_example * 2 ^ 96 * sqrtp_cur / (liq_example * 2 ^ 96 + 42 * eth * sqrtp_cur)) /\
  (forall r, swap_sell_asset1 liq_example sqrtp_cur (42 * eth) = Ok r ->
     price_next r = sqrtp_cur + 42 * eth * 2 ^ 96 / liq_example) /\
  (forall r, swap_sell_asset0 liq_example sqrtp_cur (42 * eth) = Ok r ->
     price_next r = liq_example * 2 ^ 96 * sqrtp_cur
                    / (liq_example * 2 ^ 96 + 42 * eth * sqrtp_cur)).
Proof. apply sell_price_next_formula; reflexivity. Defined.

(** C2 (counterexample): [price_to_sqrtp(0.0)] and [price_to_sqrtp(0)]
    return [0], and [calc_amount0]/[calc_amount1] over the zero-width range
    [(sqrtp_cur, sqrtp_cur)] return [0]; none of them fails. *)
Lemma domain_errors_cex :
  price_to_sqrtp (NFloat (S754_zero false)) = Ok 0 /\
  price_to_sqrtp (NInt 0) = Ok 0 /\
  calc_amount0 (NInt liq_example) sqrtp_cur sqrtp_cur = Ok 0 /\
  calc_amount1 (NInt liq_example) sqrtp_cur sqrtp_cur = Ok 0.
Proof. vm_compute; repeat split. Qed.

(** C2 (amended): [price_to_tick] raises [ValueError] on every
    non-positive price; [price_to_sqrtp] raises [ValueError] on every
    negative price ([OverflowError] for a negative [int] too large for a
    float) but returns [0] on a zero price; over a zero-width range
    [liquidity0] and [liquidity1] raise ([ZeroDivisionError], or
    [OverflowError] in [liquidity0] when an intermediate is too large for a
    float), while [calc_amount0] (positive price) and [calc_amount1] on an
    integer liquidity return [0] ([calc_amount0] raises [OverflowError] only
    for a price too large for a float). *)
Theorem domain_errors_amended :
  (forall c_log log_big_int p,
     nonpos_num p -> price_to_tick c_log log_big_int p = Err ValueError) /\
  (forall f, neg_float f -> price_to_sqrtp (NFloat f) = Err ValueError) /\
  (forall z, z < 0 ->
     price_to_sqrtp (NInt z) = Err ValueError \/ price_to_sqrtp (NInt z) = Err OverflowError) /\
  price_to_sqrtp (NInt 0) = Ok 0 /\
  (forall s, price_to_sqrtp (NFloat (S754_zero s)) = Ok 0) /\
  (forall x a,
     liquidity0 x a a = Err ZeroDivisionError \/ liquidity0 x a a = Err OverflowError) /\
  (forall x a, liquidity1 x a a = Err ZeroDivisionError) /\
  (forall l a, 0 < a ->
     calc_amount0 (NInt l) a a = Ok 0 \/ calc_amount0 (NInt l) a a = Err OverflowError) /\
  (forall l a, calc_amount1 (NInt l) a a = Ok 0).
Proof.
  destruct price_to_sqrtp_zero as [Z0 Zf].
  repeat split; auto using price_to_tick_nonpos, price_to_sqrtp_neg_float,
    price_to_sqrtp_neg_int, liquidity0_zero_width, liquidity1_zero_width,
    calc_amount0_zero_width, calc_amount1_zero_width.
Qed.

Lemma domain_errors_amended_witness :
  price_to_tick (fun f => f) (fun _ => S754_zero false) (NInt (-1)) = Err ValueError /\
  price_to_sqrtp (NFloat (S754_finite true 1 0)) = Err ValueError /\
  (price_to_sqrtp (NInt (-5000)) = Err ValueError \/
   price_to_sqrtp (NInt (-5000)) = Err OverflowError) /\
  (calc_amount0 (NInt liq_example) sqrtp_cur sqrtp_cur = Ok 0 \/
   calc_amount0 (NInt liq_example) sqrtp_cur sqrtp_cur = Err OverflowError).
Proof.
  destruct domain_errors_amended as (H1 & H2 & H3 & _ & _ & _ & _ & H8 & _).
  split; [apply H1; simpl; lia|].
  split; [apply H2; exact I|].
  split; [apply H3; lia|].
  apply H8; reflexivity.
Defined.

(** C3: over the example range [(price_to_sqrtp(5000), price_to_sqrtp(5500))],
    converting [87876131233047068209] wei of asset0 to liquidity and back
    with [calc_amount0] yields [87876131233047068672], 463 wei more than was
    put in: the float divisions round up here. *)
Theorem liquidity_amount0_roundtrip_gain :
  price_to_sqrtp (NInt 5000) = Ok sqrtp_cur /\
  price_to_sqrtp (NInt 5500) = Ok sqrtp_upp /\
  (let* l := liquidity0 (NInt 87876131233047068209) sqrtp_cur sqrtp_upp in
   calc_amount0 l sqrtp_cur sqrtp_upp) = Ok 87876131233047068672.
Proof. vm_compute; repeat split. Qed.

(** C4: [liquidity0], [liquidity1], [calc_amount0] and [calc_amount1] give
    the same result whichever order the two square-root prices come in. *)
Theorem range_order_invariance (x : num) (a b : Z) :
  liquidity0 x a b = liquidity0 x b a /\
  liquidity1 x a b = liquidity1 x b a /\
  calc_amount0 x a b = calc_amount0 x b a /\
  calc_amount1 x a b = calc_amount1 x b a.
Proof.
  unfold liquidity0, liquidity1, calc_amount0, calc_amount1.
  rewrite (order_comm a b); repeat split.
Qed.

(** C5 (counterexample): in the example pool, selling 1 wei of asset1
    leaves [amount_out] at [0]; so does selling 1 wei of asset0 into a pool
    of liquidity [1] at square-root price [2^96]. *)
Lemma swap_amount_out_zero :
  (exists r, swap_sell_asset1 liq_example sqrtp_cur 1 = Ok r /\ amount_out r = 0) /\
  (exists r, swap_sell_asset0 1 (2 ^ 96) 1 = Ok r /\ amount_out r = 0).
Proof.
  split; eexists; split; [vm_compute; reflexivity | reflexivity
                          | vm_compute; reflexivity | reflexivity].
Qed.

(** C5 (amended): with positive liquidity, price and integer input, the
    [amount_out] a swap step reports is never negative. *)
Theorem swap_amount_out_nonneg (L p a : Z) :
  0 < L -> 0 < p -> 0 < a ->
  (forall r, swap_sell_asset1 L p a = Ok r -> 0 <= amount_out r) /\
  (forall r, swap_sell_asset0 L p a = Ok r -> 0 <= amount_out r).
Proof.
  intros HL Hp Ha; split; intros r H.
  - unfold swap_sell_asset1 in H; rewrite (sell_asset1_price_next_eq L p a HL) in H.
    cbn [bind] in H.
    destruct (calc_amount1 _ _ _); [|discriminate H]; cbn [bind] in H.
    destruct (calc_amount0 _ _ _) as [z|] eqn:E; [|discriminate H]; cbn [bind] in H.
    injection H as <-; simpl.
    apply (calc_amount0_nonneg L (p + a * 2 ^ 96 / L) p); try lia.
    + assert (0 <= a * 2 ^ 96 / L) by (apply Z.div_pos; lia). lia.
    + exact E.
  - unfold swap_sell_asset0 in H; rewrite (sell_asset0_price_next_eq L p a HL Hp ltac:(lia)) in H.
    cbn [bind] in H.
    destruct (calc_amount0 _ _ _); [|discriminate H]; cbn [bind] in H.
    destruct (calc_amount1 _ _ _) as [z|] eqn:E; [|discriminate H]; cbn [bind] in H.
    injection H as <-; simpl.
    exact (calc_amount1_nonneg L _ _ z ltac:(lia) E).
Qed.

Lemma swap_amount_out_nonneg_witness :
  (forall r, swap_sell_asset1 liq_example sqrtp_cur (42 * eth) = Ok r -> 0 <= amount_out r) /\
  (forall r, swap_sell_asset0 liq_example sqrtp_cur (42 * eth) = Ok r -> 0 <= amount_out r).
Proof. apply swap_amount_out_nonneg; reflexivity. Defined.

(** C6 (counterexample): with liquidity [2^96 + 1], selling 1 unit of
    asset1 leaves the square-root price where it was. *)
Lemma sell_asset1_price_unchanged :
  sell_asset1_price_next (2 ^ 96 + 1) sqrtp_cur 1 = Ok sqrtp_cur.
Proof. vm_compute; reflexivity. Qed.

(** C6 (amended): selling asset1 never lowers the square-root price and
    raises it exactly when [L <= a * 2^96]; selling asset0 strictly lowers
    it. *)
Theorem swap_price_direction (L p a : Z) :
  0 < L -> 0 < p -> 0 < a ->
  (exists pn, sell_asset1_price_next L p a = Ok pn /\ p <= pn /\
              (p < pn <-> L <= a * 2 ^ 96)) /\
  (exists pn, sell_asset0_price_next L p a = Ok pn /\ pn < p).
Proof.
  intros HL Hp Ha; split.
  - exists (p + a * 2 ^ 96 / L); split; [apply sell_asset1_price_next_eq; lia|].
    assert (Hd : 0 <= a * 2 ^ 96 / L) by (apply Z.div_pos; lia).
    split; [lia|]; split; intros H.
    + destruct (Z.le_gt_cases L (a * 2 ^ 96)) as [Hle|Hgt]; [exact Hle|].
      rewrite (Z.div_small (a * 2 ^ 96) L) in H by lia; lia.
    + assert (0 < a * 2 ^ 96 / L) by (apply Z.div_str_pos; lia); lia.
  - exists (L * 2 ^ 96 * p / (L * 2 ^ 96 + a * p)).
    split; [apply sell_asset0_price_next_eq; lia|].
    assert (H2 : 0 < 2 ^ 96) by lia.
    apply Z.div_lt_upper_bound; nia.
Qed.

Lemma swap_price_direction_witness :
  (exists pn, sell_asset1_price_next liq_example sqrtp_cur (42 * eth) = Ok pn /\
              sqrtp_cur <= pn /\ (sqrtp_cur < pn <-> liq_example <= 42 * eth * 2 ^ 96)) /\
  (exists pn, sell_asset0_price_next liq_example sqrtp_cur (42 * eth) = Ok pn /\
              pn < sqrtp_cur).
Proof. apply swap_price_direction; reflexivity. Defined.


(** C10: in the example pool (liquidity [1517882343751509868544], as the
    provision step computes it), selling [264631464077512371258] wei of
    asset1 settles an input of [264631464077512376320] wei by
    [calc_amount1], more than was offered. *)
Theorem sell_asset1_amount_in_exceeds :
  provision eth (5000 * eth) sqrtp_low sqrtp_cur sqrtp_upp = Ok liq_example /\
  (let* pn := sell_asset1_price_next liq_example sqrtp_cur 264631464077512371258 in
   calc_amount1 (NInt liq_example) pn sqrtp_cur) = Ok 264631464077512376320.
Proof. vm_compute; repeat split. Qed.

(** ** Further properties of the module *)

Lemma binary_round_aux_opp s m e l :
  binary_round_aux prec emax (negb s) m e l = SFopp (binary_round_aux prec emax s m e l).
Proof.
  unfold binary_round_aux.
  destruct (shr_fexp prec emax m e l) as [r1 e1].
  destruct (shr_fexp prec emax _ e1 loc_Exact) as [r2 e2].
  destruct (shr_m r2); [reflexivity| |reflexivity].
  destruct (e2 <=? emax - prec); reflexivity.
Qed.

Lemma round_ratio_opp s a b : round_ratio (negb s) a b = SFopp (round_ratio s a b).
Proof.
  unfold round_ratio; destruct (a =? 0); [reflexivity|].
  destruct (SFdiv_core_binary prec emax a 0 b 0) as [[q e] l].
  apply binary_round_aux_opp.
Qed.

Lemma float_pow2_opp c_pow x : float_pow2 c_pow (SFopp x) = float_pow2 c_pow x.
Proof. destruct x; reflexivity. Qed.

(** [sqrtp_to_price] is even: [sqrtp_to_price(-s)] and [sqrtp_to_price(s)]
    agree, result or exception, whatever the platform's [pow]. *)
Theorem sqrtp_to_price_even c_pow s :
  sqrtp_to_price c_pow (- s) = sqrtp_to_price c_pow s.
Proof.
  unfold sqrtp_to_price, int_truediv.
  replace (q96 =? 0) with false by reflexivity.
  replace (q96 <? 0) with false by reflexivity.
  rewrite Z.abs_opp, !xorb_false_r.
  destruct (Z.eq_dec s 0) as [->|Hs]; [reflexivity|].
  replace (- s <? 0) with (negb (s <? 0))
    by (destruct (Z.ltb_spec s 0), (Z.ltb_spec (- s) 0); simpl; lia).
  rewrite round_ratio_opp.
  destruct (round_ratio (s <? 0) (Z.abs s) (Z.abs q96)); reflexivity.
Qed.

(** ** Liquidity signs *)

Lemma liquidity0_sign a pa pb r :
  0 <= a -> 0 <= pa -> 0 <= pb -> liquidity0 (NInt a) pa pb = Ok r ->
  exists f, r = NFloat f /\ has_sign false f.
Proof.
  intros Ha Hpa Hpb; unfold liquidity0; rewrite order_spec.
  cbn [py_mul py_truediv bind].
  destruct (int_truediv (a * (Z.min pa pb * Z.max pa pb)) q96) as [f|] eqn:E;
    cbn [bind]; [|discriminate].
  assert (Hf : has_sign false f)
    by (apply (int_truediv_sign (a * (Z.min pa pb * Z.max pa pb)) q96 f); [nia|reflexivity|exact E]).
  destruct (Z.eq_dec (Z.max pa pb - Z.min pa pb) 0) as [Hd|Hd].
  - rewrite Hd; intros H; vm_compute in H; discriminate H.
  - unfold py_truediv, to_float.
    destruct (float_of_int (Z.max pa pb - Z.min pa pb)) as [g|] eqn:G; cbn [bind];
      [|discriminate].
    destruct (float_of_int_nonzero _ g Hd G) as (m & e & ->).
    replace (Z.max pa pb - Z.min pa pb <? 0) with false by (symmetry; apply Z.ltb_ge; lia).
    intros H; injection H as <-; exists (fdiv f (S754_finite false m e)).
    split; [reflexivity|apply fdiv_sign; exact Hf].
Qed.

Lemma liquidity1_sign a pa pb r :
  0 <= a -> liquidity1 (NInt a) pa pb = Ok r -> exists f, r = NFloat f /\ has_sign false f.
Proof.
  intros Ha; unfold liquidity1; rewrite order_spec.
  cbn [py_mul py_truediv bind].
  destruct (int_truediv (a * q96) (Z.max pa pb - Z.min pa pb)) as [f|] eqn:E;
    cbn [bind]; [|discriminate].
  intros H; injection H as <-; exists f; split; [reflexivity|].
  destruct (Z.eq_dec (Z.max pa pb - Z.min pa pb) 0) as [Hd|Hd].
  - rewrite Hd in E; discriminate E.
  - apply (int_truediv_sign (a * q96) (Z.max pa pb - Z.min pa pb) f); [unfold q96; lia | lia | exact E].
Qed.

(** With non-negative amounts and square-root prices, the liquidity the
    provision step computes, [int(min(liq0, liq1))], is never negative. *)
Theorem provision_nonneg a u l c h z :
  0 <= a -> 0 <= u -> 0 <= l -> 0 <= c -> 0 <= h ->
  provision a u l c h = Ok z -> 0 <= z.
Proof.
  intros Ha Hu Hl Hc Hh; unfold provision.
  destruct (liquidity0 (NInt a) c h) as [r0|] eqn:E0; cbn [bind]; [|discriminate].
  destruct (liquidity1 (NInt u) c l) as [r1|] eqn:E1; cbn [bind]; [|discriminate].
  destruct (liquidity0_sign a c h r0 Ha Hc Hh E0) as (f0 & -> & H0).
  destruct (liquidity1_sign u c l r1 Hu E1) as (f1 & -> & H1).
  cbn [to_float bind]; apply int_of_float_nonneg.
  unfold py_min; destruct (fltb f1 f0); assumption.
Qed.

Lemma provision_nonneg_witness :
  provision eth (5000 * eth) sqrtp_low sqrtp_cur sqrtp_upp = Ok liq_example /\
  0 <= liq_example.
Proof.
  split; [vm_compute; reflexivity|].
  apply (provision_nonneg eth (5000 * eth) sqrtp_low sqrtp_cur sqrtp_upp liq_example);
    [vm_compute; discriminate .. | vm_compute; reflexivity].
Defined.

(** A positive [int] amount of asset1 between two distinct square-root
    prices less than [2^1023] apart gives a strictly positive, finite float
    liquidity when [amount * 2^96 < 2^1023 * |pb - pa|]: no overflow, and no
    underflow to [0.0]. *)
Theorem liquidity1_pos a pa pb :
  0 < a -> pa <> pb -> Z.abs (pb - pa) < 2 ^ 1023 ->
  a * 2 ^ 96 < 2 ^ 1023 * Z.abs (pb - pa) ->
  exists m e, liquidity1 (NInt a) pa pb = Ok (NFloat (S754_finite false m e)).
Proof.
  intros Ha Hne Hd Hq; unfold liquidity1; rewrite order_spec.
  cbn [py_mul py_truediv bind].
  replace (Z.max pa pb - Z.min pa pb) with (Z.abs (pb - pa)) by lia.
  assert (H1 : 0 < a * q96) by (unfold q96; lia).
  assert (H2 : 0 < Z.abs (pb - pa) < 2 ^ 1023) by lia.
  assert (H3 : a * q96 < 2 ^ 1023 * Z.abs (pb - pa)) by (unfold q96; lia).
  destruct (int_truediv_pos _ _ H1 H2 H3) as (m & e & E).
  rewrite E; cbn [bind]; exists m, e; reflexivity.
Qed.

Lemma liquidity1_pos_witness :
  exists m e, liquidity1 (NInt (5000 * eth)) sqrtp_cur sqrtp_low
              = Ok (NFloat (S754_finite false m e)).
Proof. apply liquidity1_pos; vm_compute; congruence. Defined.

(** [calc_amount1] on a non-negative [int] liquidity returns a non-negative
    [int], and raises nothing, when [liq * |pb - pa| < 2^1119]. *)
Theorem calc_amount1_ok liq pa pb :
  0 <= liq -> liq * Z.abs (pb - pa) < 2 ^ 1119 ->
  exists z, calc_amount1 (NInt liq) pa pb = Ok z /\ 0 <= z.
Proof.
  intros Hl Hb.
  assert (Hz : exists z, calc_amount1 (NInt liq) pa pb = Ok z).
  { unfold calc_amount1; rewrite order_spec; cbn [py_mul py_truediv bind].
    replace (Z.max pa pb - Z.min pa pb) with (Z.abs (pb - pa)) by lia.
    assert (H1 : q96 <> 0) by (unfold q96; lia).
    assert (H2 : Z.abs (liq * Z.abs (pb - pa)) < 2 ^ 1023 * Z.abs q96).
    { unfold q96; rewrite (Z.abs_eq (liq * Z.abs (pb - pa))) by nia.
      rewrite (Z.abs_eq (2 ^ 96)) by lia; rewrite <- Z.pow_add_r by lia; exact Hb. }
    destruct (int_truediv_ok _ _ H1 H2) as (f & E & Hf).
    rewrite E; cbn [bind py_int].
    destruct f as [s|s| |s m e]; try discriminate; eexists; reflexivity. }
  destruct Hz as [z Hz]; exists z; split; [exact Hz|].
  exact (calc_amount1_nonneg liq pa pb z Hl Hz).
Qed.

Lemma calc_amount1_ok_witness :
  exists z, calc_amount1 (NInt liq_example) sqrtp_cur sqrtp_upp = Ok z /\ 0 <= z.
Proof. apply calc_amount1_ok; vm_compute; congruence. Defined.

(** ** Swap steps *)

Lemma calc_amount0_zero_width_ok l a :
  0 < a < 2 ^ 1023 -> calc_amount0 (NInt l) a a = Ok 0.
Proof.
  intros Ha; unfold calc_amount0; rewrite order_diag, Z.sub_diag.
  unfold py_mul, py_truediv, py_int, to_float.
  cbn [bind]; rewrite Z.mul_0_r.
  rewrite (int_truediv_zero a ltac:(lia)); cbn [bind].
  destruct (float_of_int_ok a ltac:(lia)) as (g & E & _); rewrite E; cbn [bind].
  destruct (float_of_int_nonzero a g ltac:(lia) E) as (m & e & ->).
  replace (a <? 0) with false by (symmetry; apply Z.ltb_ge; lia).
  reflexivity.
Qed.

(** Selling an amount of asset1 with [amount * 2^96 < L] leaves the
    square-root price unchanged and reports [0] in and [0] out. *)
Theorem swap_sell_asset1_dust L p a :
  0 < L -> 0 <= a -> a * 2 ^ 96 < L -> 0 < p < 2 ^ 1023 ->
  swap_sell_asset1 L p a = Ok {| price_next := p; amount_in := 0; amount_out := 0 |}.
Proof.
  intros HL Ha Hs Hp; unfold swap_sell_asset1.
  rewrite (sell_asset1_price_next_eq L p a HL), (Z.div_small (a * 2 ^ 96) L) by lia.
  rewrite Z.add_0_r; cbn [bind].
  rewrite calc_amount1_zero_width, calc_amount0_zero_width_ok by lia; reflexivity.
Qed.

Lemma swap_sell_asset1_dust_witness :
  swap_sell_asset1 (2 ^ 97) sqrtp_cur 1 =
  Ok {| price_next := sqrtp_cur; amount_in := 0; amount_out := 0 |}.
Proof. apply swap_sell_asset1_dust; vm_compute; try split; congruence. Defined.

(** Selling no asset0 leaves the square-root price unchanged and reports
    [0] in and [0] out. *)
Theorem swap_sell_asset0_zero L p :
  0 < L -> 0 < p < 2 ^ 1023 ->
  swap_sell_asset0 L p 0 = Ok {| price_next := p; amount_in := 0; amount_out := 0 |}.
Proof.
  intros HL Hp; unfold swap_sell_asset0.
  rewrite (sell_asset0_price_next_eq L p 0 HL ltac:(lia) ltac:(lia)).
  replace (L * 2 ^ 96 * p / (L * 2 ^ 96 + 0 * p)) with p
    by (rewrite Z.mul_0_l, Z.add_0_r, (Z.mul_comm (L * 2 ^ 96) p), Z.div_mul by lia;
        reflexivity).
  cbn [bind].
  rewrite calc_amount1_zero_width, calc_amount0_zero_width_ok by lia; reflexivity.
Qed.

Lemma swap_sell_asset0_zero_witness :
  swap_sell_asset0 liq_example sqrtp_cur 0 =
  Ok {| price_next := sqrtp_cur; amount_in := 0; amount_out := 0 |}.
Proof. apply swap_sell_asset0_zero; vm_compute; try split; congruence. Defined.

(** A swap step in either direction never reports a negative [amount_in]. *)
Theorem swap_amount_in_nonneg L p a :
  0 < L -> 0 < p -> 0 <= a ->
  (forall r, swap_sell_asset1 L p a = Ok r -> 0 <= amount_in r) /\
  (forall r, swap_sell_asset0 L p a = Ok r -> 0 <= amount_in r).
Proof.
  intros HL Hp Ha; split; intros r H.
  - unfold swap_sell_asset1 in H; rewrite (sell_asset1_price_next_eq L p a HL) in H.
    cbn [bind] in H.
    destruct (calc_amount1 _ _ _) as [z|] eqn:E; [|discriminate H]; cbn [bind] in H.
    destruct (calc_amount0 _ _ _); [|discriminate H]; cbn [bind] in H.
    injection H as <-; simpl.
    exact (calc_amount1_nonneg L _ _ z ltac:(lia) E).
  - unfold swap_sell_asset0 in H; rewrite (sell_asset0_price_next_eq L p a HL Hp Ha) in H.
    cbn [bind] in H.
    destruct (calc_amount0 _ _ _) as [z|] eqn:E; [|discriminate H]; cbn [bind] in H.
    destruct (calc_amount1 _ _ _); [|discriminate H]; cbn [bind] in H.
    injection H as <-; simpl.
    apply (calc_amount0_nonneg L (L * 2 ^ 96 * p / (L * 2 ^ 96 + a * p)) p z);
      [lia | apply Z.div_pos; nia | lia | exact E].
Qed.

Lemma swap_amount_in_nonneg_witness :
  (forall r, swap_sell_asset1 liq_example sqrtp_cur (42 * eth) = Ok r -> 0 <= amount_in r) /\
  (forall r, swap_sell_asset0 liq_example sqrtp_cur (42 * eth) = Ok r -> 0 <= amount_in r).
Proof. apply swap_amount_in_nonneg; vm_compute; congruence. Defined.

(** A larger input never gives a lower next square-root price when
    selling asset1, nor a higher one when selling asset0. *)
Theorem price_next_monotone L p a a' :
  0 < L -> 0 < p -> 0 <= a <= a' ->
  (forall x y, sell_asset1_price_next L p a = Ok x ->
               sell_asset1_price_next L p a' = Ok y -> x <= y) /\
  (forall x y, sell_asset0_price_next L p a = Ok x ->
               sell_asset0_price_next L p a' = Ok y -> y <= x).
Proof.
  intros HL Hp Ha; split; intros x y Hx Hy.
  - rewrite sell_asset1_price_next_eq in Hx, Hy by lia.
    injection Hx as <-; injection Hy as <-.
    assert (a * 2 ^ 96 / L <= a' * 2 ^ 96 / L) by (apply Z.div_le_mono; nia).
    lia.
  - rewrite sell_asset0_price_next_eq in Hx, Hy by lia.
    injection Hx as <-; injection Hy as <-.
    apply Z.div_le_compat_l; nia.
Qed.

Lemma price_next_monotone_witness :
  (forall x y, sell_asset1_price_next liq_example sqrtp_cur eth = Ok x ->
               sell_asset1_price_next liq_example sqrtp_cur (42 * eth) = Ok y -> x <= y) /\
  (forall x y, sell_asset0_price_next liq_example sqrtp_cur eth = Ok x ->
               sell_asset0_price_next liq_example sqrtp_cur (42 * eth) = Ok y -> y <= x).
Proof. apply price_next_monotone; vm_compute; try split; congruence. Defined.

Lemma div_add_split x y L :
  0 < L -> (x + y) / L - 1 <= x / L + y / L <= (x + y) / L.
Proof.
  intros HL.
  pose proof (Z.div_mod x L ltac:(lia)); pose proof (Z.mod_pos_bound x L HL).
  pose proof (Z.div_mod y L ltac:(lia)); pose proof (Z.mod_pos_bound y L HL).
  replace (x + y) with ((x / L + y / L) * L + (x mod L + y mod L)) by lia.
  rewrite Z.div_add_l by lia.
  assert (0 <= (x mod L + y mod L) / L) by (apply Z.div_pos; lia).
  assert ((x mod L + y mod L) / L < 2) by (apply Z.div_lt_upper_bound; lia).
  lia.
Qed.

(** Two successive asset1 sells end at most one unit below, and never above,
    one sell of the combined amount. *)
Theorem sell_asset1_split L p a1 a2 p1 p2 p12 :
  0 < L -> 0 <= a1 -> 0 <= a2 ->
  sell_asset1_price_next L p a1 = Ok p1 ->
  sell_asset1_price_next L p1 a2 = Ok p2 ->
  sell_asset1_price_next L p (a1 + a2) = Ok p12 ->
  p12 - 1 <= p2 <= p12.
Proof.
  intros HL H1 H2 E1 E2 E12.
  rewrite sell_asset1_price_next_eq in E1, E2, E12 by lia.
  injection E1 as <-; injection E2 as <-; injection E12 as <-.
  change (Z.pow_pos 2 96) with (2 ^ 96).
  rewrite Z.mul_add_distr_r.
  pose proof (div_add_split (a1 * 2 ^ 96) (a2 * 2 ^ 96) L HL); lia.
Qed.

Lemma sell_asset1_split_witness :
  sell_asset1_price_next liq_example sqrtp_cur eth = Ok 5602329293989655001067811167738 /\
  sell_asset1_price_next liq_example 5602329293989655001067811167738 (41 * eth)
    = Ok 5604469350942327889444743441196 /\
  sell_asset1_price_next liq_example sqrtp_cur (eth + 41 * eth)
    = Ok 5604469350942327889444743441197 /\
  5604469350942327889444743441197 - 1 <= 5604469350942327889444743441196
    <= 5604469350942327889444743441197.
Proof.
  split; [vm_compute; reflexivity|]; split; [vm_compute; reflexivity|].
  split; [vm_compute; reflexivity|].
  apply (sell_asset1_split liq_example sqrtp_cur eth (41 * eth)
           5602329293989655001067811167738 5604469350942327889444743441196
           5604469350942327889444743441197); vm_compute;
    try reflexivity; congruence.
Defined.

Lemma sell_asset0_price_next_eq_nonneg liq p a :
  0 < liq -> 0 <= p -> 0 <= a ->
  sell_asset0_price_next liq p a = Ok (liq * 2 ^ 96 * p / (liq * 2 ^ 96 + a * p)).
Proof.
  intros Hl Hp Ha; unfold sell_asset0_price_next, int_floordiv, q96.
  replace (liq * 2 ^ 96 + a * p =? 0) with false
    by (symmetry; apply Z.eqb_neq; assert (0 < 2 ^ 96) by lia; nia).
  reflexivity.
Qed.

(** Two successive asset0 sells never end above one sell of the combined
    amount. *)
Theorem sell_asset0_split L p a1 a2 p1 p2 p12 :
  0 < L -> 0 < p -> 0 <= a1 -> 0 <= a2 ->
  sell_asset0_price_next L p a1 = Ok p1 ->
  sell_asset0_price_next L p1 a2 = Ok p2 ->
  sell_asset0_price_next L p (a1 + a2) = Ok p12 ->
  p2 <= p12.
Proof.
  intros HL Hp H1 H2 E1 E2 E12.
  rewrite sell_asset0_price_next_eq in E1, E12 by lia.
  injection E1 as <-; injection E12 as <-.
  change (Z.pow_pos 2 96) with (2 ^ 96) in *.
  set (M := L * 2 ^ 96) in *.
  assert (HM : 0 < M) by (unfold M; lia).
  set (n := M * p / (M + a1 * p)) in *.
  assert (Hn : 0 <= n) by (apply Z.div_pos; nia).
  rewrite sell_asset0_price_next_eq_nonneg in E2 by lia; fold M in E2.
  injection E2 as <-.
  change (Z.pow_pos 2 96) with (2 ^ 96) in *; fold M.
  set (k := M * n / (M + a2 * n)).
  assert (Hk0 : 0 <= k) by (apply Z.div_pos; nia).
  assert (Hk : (M + a2 * n) * k <= M * n) by (apply Z.mul_div_le; nia).
  assert (Hn' : (M + a1 * p) * n <= M * p) by (apply Z.mul_div_le; nia).
  apply Z.div_le_lower_bound; [nia|].
  destruct (Z.eq_dec n 0) as [Hn0|Hn0].
  - assert (k = 0) by (unfold k; rewrite Hn0, Z.mul_0_r; apply Z.div_0_l; lia).
    nia.
  - assert (Hp1 : p * ((M + a2 * n) * k) <= p * (M * n)) by (apply Z.mul_le_mono_nonneg_l; lia).
    assert (Hp2 : k * ((M + a1 * p) * n) <= k * (M * p)) by (apply Z.mul_le_mono_nonneg_l; lia).
    assert (Hsum : n * ((M + (a1 + a2) * p) * k) <= n * (M * p)) by nia.
    apply (Z.mul_le_mono_pos_l _ _ n); lia.
Qed.

Lemma sell_asset0_split_witness :
  sell_asset0_price_next liq_example sqrtp_cur eth = Ok 5352911270537635590452592457546 /\
  sell_asset0_price_next liq_example 5352911270537635590452592457546 (41 * eth)
    = Ok 1894854621002890287674065858478 /\
  sell_asset0_price_next liq_example sqrtp_cur (eth + 41 * eth)
    = Ok 1894854621002890287674065858478 /\
  1894854621002890287674065858478 <= 1894854621002890287674065858478.
Proof.
  split; [vm_compute; reflexivity|]; split; [vm_compute; reflexivity|].
  split; [vm_compute; reflexivity|].
  apply (sell_asset0_split liq_example sqrtp_cur eth (41 * eth)
           5352911270537635590452592457546 1894854621002890287674065858478
           1894854621002890287674065858478); vm_compute;
    try reflexivity; congruence.
Defined.

(** [sqrtp_to_price] raises no exception but [OverflowError]. *)
Theorem sqrtp_to_price_err c_pow s e :
  sqrtp_to_price c_pow s = Err e -> e = OverflowError.
Proof.
  unfold sqrtp_to_price.
  destruct (int_truediv s q96) as [x|e'] eqn:E; cbn [bind].
  - destruct x as [sx|sx| |sx m ex]; simpl; try discriminate.
    destruct (SFeqb _ float_one); [discriminate|].
    destruct (is_inf _); intros H; inversion H; reflexivity.
  - intros H; injection H as <-; exact (int_truediv_err s q96 e' ltac:(discriminate) E).
Qed.

Lemma sqrtp_to_price_err_witness :
  sqrtp_to_price (fun _ _ => float_one) (2 ^ 1200) = Err OverflowError /\
  OverflowError = OverflowError.
Proof.
  split; [vm_compute; reflexivity|].
  apply (sqrtp_to_price_err (fun _ _ => float_one) (2 ^ 1200)); vm_compute; reflexivity.
Defined.

(** ** [price_to_sqrtp] signs *)

Lemma SFsqrt_core_nonneg m e : 0 <= fst (fst (SFsqrt_core_binary prec emax m e)).
Proof.
  unfold SFsqrt_core_binary; cbv zeta.
  match goal with |- context [Z.sqrtrem ?a] =>
    pose proof (Z.sqrtrem_sqrt a) as Hq;
    destruct (Z.sqrtrem a) as [q r]; simpl in Hq |- *; rewrite Hq; apply Z.sqrt_nonneg end.
Qed.

Lemma math_sqrt_sign p s : math_sqrt p = Ok s -> s = S754_nan \/ has_sign false s.
Proof.
  unfold math_sqrt; destruct (to_float p) as [f|] eqn:E; cbn [bind]; [|discriminate].
  unfold fsqrt, SFsqrt.
  destruct f as [sf|[]| |[] m e]; intros H.
  - injection H as <-; right; exact I.
  - discriminate H.
  - injection H as <-; right; reflexivity.
  - injection H as <-; left; reflexivity.
  - discriminate H.
  - pose proof (SFsqrt_core_nonneg (Zpos m) e) as Hq.
    destruct (SFsqrt_core_binary prec emax (Zpos m) e) as [[q ez] lz]; simpl in Hq.
    pose proof (binary_round_aux_sign false q ez lz Hq) as Hs.
    destruct (binary_round_aux prec emax false q ez lz); simpl in Hs; try contradiction;
      injection H as <-; right; assumption.
Qed.

(** [price_to_sqrtp] never returns a negative value, for an [int] or a
    [float] price. *)
Theorem price_to_sqrtp_nonneg p z : price_to_sqrtp p = Ok z -> 0 <= z.
Proof.
  unfold price_to_sqrtp; destruct (math_sqrt p) as [s|] eqn:E; cbn [bind]; [|discriminate].
  cbn [py_mul to_float]; rewrite float_of_int_q96; cbn [bind py_int].
  destruct (math_sqrt_sign p s E) as [->|Hs]; [discriminate|].
  apply int_of_float_nonneg; unfold fmul, SFmul, q96_float.
  destruct s as [sx|sx| |sx m e]; simpl in Hs; try contradiction; subst; simpl;
    try reflexivity; try exact I.
  apply binary_round_aux_sign; lia.
Qed.

Lemma price_to_sqrtp_nonneg_witness :
  price_to_sqrtp (NInt 5000) = Ok sqrtp_cur /\ 0 <= sqrtp_cur.
Proof.
  split; [vm_compute; reflexivity|].
  apply (price_to_sqrtp_nonneg (NInt 5000)); vm_compute; reflexivity.
Defined.

(** ** The tick round trip in real numbers *)

Lemma bp_pos e : (0 < powerRZ 2 e)%R.
Proof. apply powerRZ_lt; lra. Qed.

Lemma bp_add a b : powerRZ 2 (a + b) = (powerRZ 2 a * powerRZ 2 b)%R.
Proof. apply powerRZ_add; lra. Qed.

Lemma IZR_pow2 k : 0 <= k -> IZR (2 ^ k) = powerRZ 2 k.
Proof.
  intros Hk; rewrite <- (Z2Nat.id k Hk).
  rewrite <- pow_powerRZ, pow_IZR; reflexivity.
Qed.

(** [a * 2^k] at exponent [e] is [a] at exponent [e + k]. *)
Lemma IZR_scale a k e :
  0 <= k -> (IZR (a * 2 ^ k) * powerRZ 2 e = IZR a * powerRZ 2 (e + k))%R.
Proof.
  intros Hk; rewrite mult_IZR, IZR_pow2 by exact Hk; rewrite bp_add; ring.
Qed.

Lemma Zdigits2_bounds m :
  0 < m -> 2 ^ (Zdigits2 m - 1) <= m < 2 ^ Zdigits2 m.
Proof.
  intros Hm; destruct m as [|p|p]; try lia; simpl Zdigits2.
  split; [apply digits2_pos_bound | apply digits2_pos_upper].
Qed.

(** Rounding a mantissa of at least 53 bits: the result is within a
    relative [2^-52] of any value the mantissa and its location bracket. *)
Lemma binary_round_aux_rel sx mx ex lx (X : R) :
  2 ^ 52 <= mx -> emin prec emax <= ex -> mx < 2 ^ (1023 - ex) ->
  (IZR mx * powerRZ 2 ex <= X <= IZR (mx + 1) * powerRZ 2 ex)%R ->
  exists m e, binary_round_aux prec emax sx mx ex lx = S754_finite sx m e /\
    (Rabs (IZR (Zpos m) * powerRZ 2 e - X) <= X / 4503599627370496)%R.
Proof.
  intros Hm Hex Hup HX.
  pose proof (Zdigits2_bounds mx ltac:(lia)) as Hd.
  set (d := Zdigits2 mx) in *.
  assert (Hd53 : 53 <= d).
  { destruct (Z.le_gt_cases 53 d) as [|Hlt]; [assumption|].
    assert (2 ^ d <= 2 ^ 52) by (apply Z.pow_le_mono_r; lia); lia. }
  assert (Hdu : d <= 1023 - ex) by (apply Zdigits2_le; lia).
  unfold emin, prec, emax in Hex.
  unfold binary_round_aux.
  pose proof (shr_fexp_spec mx ex lx ltac:(lia)) as [He1 Hm1].
  destruct (shr_fexp prec emax mx ex lx) as [r1 e1]; simpl in He1, Hm1; cbv beta iota.
  assert (He1' : e1 = ex + (d - 53)) by (rewrite He1; unfold fexp, emin, prec, emax; fold d; lia).
  rewrite He1', Z.shiftr_div_pow2 in Hm1 by lia.
  replace (ex + (d - 53) - ex) with (d - 53) in Hm1 by lia.
  set (m1 := shr_m r1) in *.
  assert (Hp : 0 < 2 ^ (d - 53)) by (apply Z.pow_pos_nonneg; lia).
  assert (Hlo : m1 * 2 ^ (d - 53) <= mx) by (rewrite Hm1, Z.mul_comm; apply Z.mul_div_le; lia).
  assert (Hhi : mx < (m1 + 1) * 2 ^ (d - 53))
    by (rewrite Hm1, Z.mul_comm; apply Z.mul_succ_div_gt; lia).
  assert (Hm1lo : 2 ^ 52 <= m1).
  { rewrite Hm1; apply Z.div_le_lower_bound; [lia|].
    rewrite <- Z.pow_add_r by lia.
    replace (d - 53 + 52) with (d - 1) by lia; lia. }
  assert (Hm1hi : m1 < 2 ^ 53).
  { rewrite Hm1; apply Z.div_lt_upper_bound; [lia|].
    rewrite <- Z.pow_add_r by lia.
    replace (d - 53 + 53) with d by lia; lia. }
  assert (HX1 : (IZR m1 * powerRZ 2 e1 <= X <= IZR (m1 + 1) * powerRZ 2 e1)%R).
  { rewrite He1', <- !IZR_scale by lia.
    pose proof (bp_pos ex).
    split.
    - apply Rle_trans with (IZR mx * powerRZ 2 ex)%R; [|lra].
      apply Rmult_le_compat_r; [lra|]; apply IZR_le; lia.
    - apply Rle_trans with (IZR (mx + 1) * powerRZ 2 ex)%R; [lra|].
      apply Rmult_le_compat_r; [lra|]; apply IZR_le; lia. }
  set (r := round_nearest_even m1 (loc_of_shr_record r1)).
  assert (Hr : m1 <= r <= m1 + 1) by apply round_nearest_even_le.
  pose proof (shr_fexp_spec r e1 loc_Exact ltac:(lia)) as [He2 Hm2].
  destruct (shr_fexp prec emax r e1 loc_Exact) as [r2 e2]; simpl in He2, Hm2; cbv beta iota.
  assert (Hfin : exists p, shr_m r2 = Zpos p /\ e2 <= 971 /\
            (IZR (Zpos p) * powerRZ 2 e2 = IZR r * powerRZ 2 e1)%R).
  { destruct (Z.eq_dec r (2 ^ 53)) as [Heq|Hne].
    - assert (Hdr : Zdigits2 r = 54) by (rewrite Heq; reflexivity).
      assert (He2' : e2 = e1 + 1)
        by (rewrite He2, Hdr; unfold fexp, emin, prec, emax; lia).
      rewrite Hm2, He2', Heq.
      replace (e1 + 1 - e1) with 1 by lia.
      exists (2 ^ 52)%positive; split; [reflexivity|split; [lia|]].
      replace (2 ^ 53) with (Zpos (2 ^ 52) * 2 ^ 1) by reflexivity.
      rewrite IZR_scale by lia; reflexivity.
    - assert (Hdr : Zdigits2 r <= 53) by (apply Zdigits2_le; lia).
      assert (He2' : e2 = e1) by (rewrite He2; unfold fexp, emin, prec, emax; lia).
      rewrite Hm2, He2', Z.sub_diag, Z.shiftr_0_r.
      destruct r as [|p|p] eqn:Er; try lia.
      exists p; split; [reflexivity|split; [lia|reflexivity]]. }
  destruct Hfin as [p [Hp2 [He2b Hval]]].
  rewrite Hp2; unfold emax, prec.
  replace (e2 <=? 1024 - 53) with true by (symmetry; apply Z.leb_le; lia).
  exists p, e2; split; [reflexivity|].
  rewrite Hval.
  pose proof (bp_pos e1) as Hb.
  assert (H52 : (4503599627370496 <= IZR m1)%R)
    by (change 4503599627370496%R with (IZR (2 ^ 52)); apply IZR_le; lia).
  assert (Hrr : (IZR m1 <= IZR r <= IZR m1 + 1)%R)
    by (split; [apply IZR_le; lia|rewrite <- plus_IZR; apply IZR_le; lia]).
  rewrite plus_IZR in HX1.
  apply Rabs_le; split.
  - assert (4503599627370496 * powerRZ 2 e1 <= X)%R by nra.
    nra.
  - assert (4503599627370496 * powerRZ 2 e1 <= X)%R by nra.
    nra.
Qed.

Lemma bp_lt a b : a < b -> (powerRZ 2 a < powerRZ 2 b)%R.
Proof.
  intros H; replace b with (a + (b - a)) by lia; rewrite bp_add.
  rewrite <- (IZR_pow2 (b - a)) by lia.
  assert (2 ^ 1 <= 2 ^ (b - a)) by (apply Z.pow_le_mono_r; lia).
  assert (H2 : (2 <= IZR (2 ^ (b - a)))%R) by (apply IZR_le; simpl in *; lia).
  pose proof (bp_pos a); nra.
Qed.

Lemma bp_le a b : a <= b -> (powerRZ 2 a <= powerRZ 2 b)%R.
Proof.
  intros H; destruct (Z.eq_dec a b) as [->|]; [lra|].
  apply Rlt_le, bp_lt; lia.
Qed.

Lemma bp_lt_inv a b : (powerRZ 2 a < powerRZ 2 b)%R -> a < b.
Proof.
  intros H; destruct (Z.lt_ge_cases a b) as [|Hge]; [assumption|].
  pose proof (bp_le b a Hge); lra.
Qed.

(** A positive mantissa [m] at exponent [e] lies in
    [[2^(digits m + e - 1), 2^(digits m + e))]. *)
Lemma mant_bounds m e :
  0 < m ->
  (powerRZ 2 (Zdigits2 m + e - 1) <= IZR m * powerRZ 2 e < powerRZ 2 (Zdigits2 m + e))%R.
Proof.
  intros Hm; pose proof (Zdigits2_bounds m Hm) as [H1 H2].
  assert (Hd : 1 <= Zdigits2 m).
  { destruct m as [|p|p]; try lia; simpl; lia. }
  pose proof (bp_pos e) as He.
  replace (Zdigits2 m + e - 1) with (e + (Zdigits2 m - 1)) by lia.
  replace (Zdigits2 m + e) with (e + Zdigits2 m) by lia.
  rewrite !bp_add, <- (IZR_pow2 (Zdigits2 m - 1)), <- (IZR_pow2 (Zdigits2 m)) by lia.
  split.
  - rewrite (Rmult_comm (IZR m)); apply Rmult_le_compat_l; [lra|]; apply IZR_le; lia.
  - rewrite (Rmult_comm (IZR m)); apply Rmult_lt_compat_l; [lra|]; apply IZR_lt; lia.
Qed.

Lemma SFdiv_core_spec m1 e1 m2 e2 :
  0 <= m1 -> 0 < m2 ->
  let e := Z.min (fexp prec emax (Zdigits2 m1 + e1 - (Zdigits2 m2 + e2))) (e1 - e2) in
  fst (fst (SFdiv_core_binary prec emax m1 e1 m2 e2)) = m1 * 2 ^ (e1 - e2 - e) / m2 /\
  snd (fst (SFdiv_core_binary prec emax m1 e1 m2 e2)) = e.
Proof.
  intros H1 H2 e; unfold SFdiv_core_binary; cbv zeta; fold e.
  assert (He : 0 <= e1 - e2 - e) by (unfold e; lia).
  replace (match e1 - e2 - e with Zpos _ => Z.shiftl m1 (e1 - e2 - e) | Z0 => m1 | Zneg _ => 0 end)
    with (m1 * 2 ^ (e1 - e2 - e)).
  2:{ destruct (e1 - e2 - e) eqn:E; [rewrite Z.mul_1_r; reflexivity
      | rewrite Z.shiftl_mul_pow2 by lia; reflexivity | lia]. }
  unfold Z.div; destruct (Z.div_eucl (m1 * 2 ^ (e1 - e2 - e)) m2); split; reflexivity.
Qed.

(** Correctly rounded division of positive mantissas: relative error
    at most [2^-52], when the quotient is neither tiny nor huge. *)
Lemma div_round_rel s m1 e1 m2 e2 :
  0 < m1 -> 0 < m2 ->
  -1021 <= Zdigits2 m1 + e1 - (Zdigits2 m2 + e2) <= 1022 ->
  (emin prec emax <= e1 - e2 \/ Zdigits2 m1 - Zdigits2 m2 < 53) ->
  let X := (IZR m1 * powerRZ 2 e1 / (IZR m2 * powerRZ 2 e2))%R in
  exists m e,
    (let '(mz, ez, lz) := SFdiv_core_binary prec emax m1 e1 m2 e2 in
     binary_round_aux prec emax s mz ez lz) = S754_finite s m e /\
    (Rabs (IZR (Zpos m) * powerRZ 2 e - X) <= X / 4503599627370496)%R.
Proof.
  intros H1 H2 HD Hc X.
  pose proof (SFdiv_core_spec m1 e1 m2 e2 ltac:(lia) H2) as [Hq He].
  destruct (SFdiv_core_binary prec emax m1 e1 m2 e2) as [[q e'] l]; simpl in Hq, He.
  set (D := Zdigits2 m1 + e1 - (Zdigits2 m2 + e2)) in *.
  pose proof (Zdigits2_bounds m1 H1) as [Ha1 Ha2].
  pose proof (Zdigits2_bounds m2 H2) as [Hb1 Hb2].
  assert (Hd1 : 1 <= Zdigits2 m1) by (destruct m1; simpl; lia).
  assert (Hd2 : 1 <= Zdigits2 m2) by (destruct m2; simpl; lia).
  set (d1 := Zdigits2 m1) in *; set (d2 := Zdigits2 m2) in *.
  assert (He' : e' <= D - 53 /\ emin prec emax <= e').
  { rewrite He; unfold fexp, emin, prec, emax in *; lia. }
  destruct He' as [He'1 He'2]; rewrite <- He in Hq.
  set (k := e1 - e2 - e') in *.
  assert (Hk : 0 <= k) by (unfold k; rewrite He; lia).
  assert (Hk2 : d2 - d1 + 53 <= k) by (unfold k, D in *; lia).
  assert (Hpk : 0 < 2 ^ k) by (apply Z.pow_pos_nonneg; lia).
  assert (Hq1 : q * m2 <= m1 * 2 ^ k < (q + 1) * m2).
  { rewrite Hq.
    pose proof (Z.mul_div_le (m1 * 2 ^ k) m2 H2).
    pose proof (Z.mul_succ_div_gt (m1 * 2 ^ k) m2 H2).
    lia. }
  assert (Hql : 2 ^ 52 <= q).
  { rewrite Hq; apply Z.div_le_lower_bound; [lia|].
    assert (2 ^ d2 * 2 ^ 52 <= 2 ^ (d1 - 1) * 2 ^ k).
    { rewrite <- !Z.pow_add_r by lia; apply Z.pow_le_mono_r; lia. }
    assert (0 <= 2 ^ (d1 - 1)) by (apply Z.pow_nonneg; lia).
    nia. }
  assert (Hqu : q < 2 ^ (1023 - e')).
  { rewrite Hq; apply Z.div_lt_upper_bound; [lia|].
    assert (2 ^ d1 * 2 ^ k <= 2 ^ (d2 - 1) * 2 ^ (1023 - e')).
    { rewrite <- !Z.pow_add_r by (unfold k in *; lia); apply Z.pow_le_mono_r; unfold k in *; lia. }
    assert (0 <= 2 ^ k) by lia.
    assert (0 <= 2 ^ (1023 - e')) by (apply Z.pow_nonneg; lia).
    nia. }
  apply binary_round_aux_rel; [exact Hql|exact He'2|exact Hqu|].
  assert (HXe : X = (IZR (m1 * 2 ^ k) / IZR m2 * powerRZ 2 e')%R).
  { unfold X; rewrite mult_IZR, IZR_pow2 by lia.
    replace e1 with (e2 + (e' + k)) by (unfold k; lia).
    rewrite !bp_add.
    pose proof (bp_pos e2); pose proof (bp_pos e'); pose proof (bp_pos k).
    assert (IZR m2 <> 0)%R by (apply not_0_IZR; lia).
    field; split; lra. }
  rewrite HXe.
  assert (Hm2 : (0 < IZR m2)%R) by (apply IZR_lt; lia).
  assert (Hl : (IZR q <= IZR (m1 * 2 ^ k) / IZR m2)%R).
  { apply Rmult_le_reg_r with (IZR m2); [lra|].
    unfold Rdiv; rewrite Rmult_assoc, Rinv_l, Rmult_1_r by lra.
    rewrite <- mult_IZR; apply IZR_le; lia. }
  assert (Hu : (IZR (m1 * 2 ^ k) / IZR m2 <= IZR (q + 1))%R).
  { apply Rmult_le_reg_r with (IZR m2); [lra|].
    unfold Rdiv; rewrite Rmult_assoc, Rinv_l, Rmult_1_r by lra.
    rewrite <- mult_IZR; apply IZR_le; lia. }
  pose proof (bp_pos e').
  split; apply Rmult_le_compat_r; lra.
Qed.

Lemma fdiv_rel sx mx ex sy my ey :
  Zdigits2 (Zpos mx) <= 53 ->
  -1021 <= Zdigits2 (Zpos mx) + ex - (Zdigits2 (Zpos my) + ey) <= 1022 ->
  let X := (IZR (Zpos mx) * powerRZ 2 ex / (IZR (Zpos my) * powerRZ 2 ey))%R in
  exists m e, fdiv (S754_finite sx mx ex) (S754_finite sy my ey) = S754_finite (xorb sx sy) m e /\
    (Rabs (IZR (Zpos m) * powerRZ 2 e - X) <= X / 4503599627370496)%R.
Proof.
  intros Hd HD X.
  assert (Hd2 : 1 <= Zdigits2 (Zpos my)) by (simpl; lia).
  apply (div_round_rel (xorb sx sy) (Zpos mx) ex (Zpos my) ey); [lia|lia|exact HD|right; lia].
Qed.

Lemma int_truediv_rel a b :
  a <> 0 -> 0 < b -> -1021 <= Zdigits2 (Z.abs a) - Zdigits2 b <= 1022 ->
  exists m e, int_truediv a b = Ok (S754_finite (a <? 0) m e) /\
    (Rabs (IZR (Zpos m) * powerRZ 2 e - IZR (Z.abs a) / IZR b)
       <= IZR (Z.abs a) / IZR b / 4503599627370496)%R.
Proof.
  intros Ha Hb HD.
  destruct (div_round_rel (a <? 0) (Z.abs a) 0 b 0) as [m [e [Hr Herr]]];
    [lia|lia|lia|left; unfold emin, prec, emax; lia|].
  exists m, e; split.
  - unfold int_truediv, round_ratio.
    replace (b =? 0) with false by (symmetry; apply Z.eqb_neq; lia).
    replace (b <? 0) with false by (symmetry; apply Z.ltb_ge; lia).
    replace (Z.abs a =? 0) with false by (symmetry; apply Z.eqb_neq; lia).
    rewrite Z.abs_eq with (n := b) by lia.
    replace (xorb (a <? 0) false) with (a <? 0) by (destruct (a <? 0); reflexivity).
    rewrite Hr; reflexivity.
  - simpl powerRZ in Herr; rewrite !Rmult_1_r in Herr; exact Herr.
Qed.

Lemma fmul_q96_rel m e :
  emin prec emax <= e -> (IZR (Zpos m) * powerRZ 2 e < powerRZ 2 900)%R ->
  let X := (IZR (Zpos m) * powerRZ 2 e * powerRZ 2 96)%R in
  exists m' e', fmul (S754_finite false m e) q96_float = S754_finite false m' e' /\
    (Rabs (IZR (Zpos m') * powerRZ 2 e' - X) <= X / 4503599627370496)%R.
Proof.
  intros He Hv X.
  unfold fmul, q96_float, SFmul; simpl xorb.
  assert (Hd := mant_bounds (Zpos m) e ltac:(lia)).
  assert (Hde : Zdigits2 (Zpos m) + e - 1 < 900) by (apply bp_lt_inv; lra).
  assert (Hd1 : 1 <= Zdigits2 (Zpos m)) by (simpl; lia).
  pose proof (Zdigits2_bounds (Zpos m) ltac:(lia)) as [_ Hm].
  apply binary_round_aux_rel.
  - rewrite Pos2Z.inj_mul; lia.
  - unfold emin, prec, emax in *; lia.
  - rewrite Pos2Z.inj_mul.
    assert (2 ^ Zdigits2 (Zpos m) * 2 ^ 53 <= 2 ^ (1023 - (e + 44))).
    { rewrite <- Z.pow_add_r by lia; apply Z.pow_le_mono_r; lia. }
    change (Zpos 4503599627370496) with (2 ^ 52).
    assert (2 ^ 52 < 2 ^ 53) by (apply Z.pow_lt_mono_r; lia).
    nia.
  - assert (HX : X = (IZR (Zpos m * 2 ^ 52) * powerRZ 2 (e + 44))%R).
    { unfold X; rewrite IZR_scale by lia.
      replace (e + 44 + 52) with (e + 96) by lia; rewrite bp_add; ring. }
    rewrite Pos2Z.inj_mul; change (Zpos 4503599627370496) with (2 ^ 52).
    rewrite HX, plus_IZR.
    pose proof (bp_pos (e + 44)); split; lra.
Qed.

(** [int(f)] of a positive float truncates: it is the floor. *)
Lemma int_of_float_floor m e :
  exists z, int_of_float (S754_finite false m e) = Ok z /\
    (IZR z <= IZR (Zpos m) * powerRZ 2 e < IZR z + 1)%R.
Proof.
  simpl int_of_float.
  destruct (Z.leb_spec 0 e) as [He|He]; eexists; split; try reflexivity.
  - rewrite Z.shiftl_mul_pow2 by lia.
    rewrite mult_IZR, IZR_pow2 by lia; lra.
  - rewrite Z.shiftr_div_pow2 by lia.
    set (k := - e).
    assert (Hk : 0 < 2 ^ k) by (apply Z.pow_pos_nonneg; lia).
    pose proof (Z.mul_div_le (Zpos m) (2 ^ k) Hk).
    pose proof (Z.mul_succ_div_gt (Zpos m) (2 ^ k) Hk).
    set (q := Zpos m / 2 ^ k) in *.
    assert (Hb : powerRZ 2 e = (/ IZR (2 ^ k))%R).
    { rewrite IZR_pow2 by lia.
      replace e with (- k) by lia; rewrite powerRZ_neg'; reflexivity. }
    rewrite Hb.
    assert (HK : (0 < IZR (2 ^ k))%R) by (apply IZR_lt; lia).
    split.
    + apply Rmult_le_reg_r with (IZR (2 ^ k)); [lra|].
      rewrite Rmult_assoc, Rinv_l, Rmult_1_r by lra.
      rewrite <- mult_IZR; apply IZR_le; lia.
    + apply Rmult_lt_reg_r with (IZR (2 ^ k)); [lra|].
      rewrite Rmult_assoc, Rinv_l, Rmult_1_r by lra.
      rewrite <- plus_IZR, <- mult_IZR; apply IZR_lt; lia.
Qed.

(** [math.floor] of a finite float. *)
Lemma float_floor_spec f :
  is_finite f = true ->
  exists z, float_floor f = Ok z /\ (IZR z <= B2R f < IZR z + 1)%R.
Proof.
  intros Hf; destruct f as [s|s| |s m e]; try discriminate.
  - exists 0; split; [reflexivity|simpl; lra].
  - simpl float_floor; simpl B2R.
    set (n := cond_Zopp s (Zpos m)).
    destruct (Z.leb_spec 0 e) as [He|He]; eexists; split; try reflexivity.
    + rewrite Z.shiftl_mul_pow2 by lia.
      rewrite mult_IZR, IZR_pow2 by lia; lra.
    + rewrite Z.shiftr_div_pow2 by lia.
      set (k := - e).
      assert (Hk : 0 < 2 ^ k) by (apply Z.pow_pos_nonneg; lia).
      pose proof (Z.mul_div_le n (2 ^ k) Hk).
      pose proof (Z.mul_succ_div_gt n (2 ^ k) Hk).
      set (q := n / 2 ^ k) in *.
      assert (Hb : powerRZ 2 e = (/ IZR (2 ^ k))%R).
      { rewrite IZR_pow2 by lia.
        replace e with (- k) by lia; rewrite powerRZ_neg'; reflexivity. }
      rewrite Hb.
      assert (HK : (0 < IZR (2 ^ k))%R) by (apply IZR_lt; lia).
      split.
      * apply Rmult_le_reg_r with (IZR (2 ^ k)); [lra|].
        rewrite Rmult_assoc, Rinv_l, Rmult_1_r by lra.
        rewrite <- mult_IZR; apply IZR_le; lia.
      * apply Rmult_lt_reg_r with (IZR (2 ^ k)); [lra|].
        rewrite Rmult_assoc, Rinv_l, Rmult_1_r by lra.
        rewrite <- plus_IZR, <- mult_IZR; apply IZR_lt; lia.
Qed.

Open Scope R_scope.

Lemma Rabs_le_inv x b : Rabs x <= b -> - b <= x <= b.
Proof. unfold Rabs; destruct (Rcase_abs x); lra. Qed.

Lemma exp_le_mono x y : x <= y -> exp x <= exp y.
Proof.
  intros H; destruct (Req_dec x y) as [->|]; [lra|].
  apply Rlt_le, exp_increasing; lra.
Qed.

Lemma ln_le_of_exp x y : 0 < x -> x <= exp y -> ln x <= y.
Proof.
  intros Hx H; destruct (Rle_or_lt (ln x) y) as [|Hlt]; [assumption|].
  apply exp_increasing in Hlt; rewrite exp_ln in Hlt by exact Hx; lra.
Qed.

Lemma ln_ge_of_exp x y : 0 < x -> exp y <= x -> y <= ln x.
Proof.
  intros Hx H; destruct (Rle_or_lt y (ln x)) as [|Hlt]; [assumption|].
  apply exp_increasing in Hlt; rewrite exp_ln in Hlt by exact Hx; lra.
Qed.

(** [|ln r| <= 2 d] for [r] within [d <= 1/2] of [1]. *)
Lemma ln_near_one r d : 0 <= d <= / 2 -> 1 - d <= r <= 1 + d -> Rabs (ln r) <= 2 * d.
Proof.
  intros Hd Hr; apply Rabs_le; split.
  - apply ln_ge_of_exp; [lra|].
    pose proof (exp_ineq1_le (2 * d)) as H1.
    assert (Hm : exp (- (2 * d)) * exp (2 * d) = 1)
      by (rewrite <- exp_plus; replace (- (2 * d) + 2 * d) with 0 by ring; apply exp_0).
    pose proof (exp_pos (- (2 * d))) as Hp.
    assert (exp (- (2 * d)) * (1 + 2 * d) <= 1) by nra.
    nra.
  - apply ln_le_of_exp; [lra|].
    pose proof (exp_ineq1_le (2 * d)); lra.
Qed.

(** Relative closeness turns into additive closeness of logarithms. *)
Lemma ln_close w v d :
  0 < v -> 0 <= d <= / 2 -> Rabs (w - v) <= d * v -> Rabs (ln w - ln v) <= 2 * d.
Proof.
  intros Hv Hd H.
  apply Rabs_le_inv in H.
  assert (Hw : 0 < w) by nra.
  replace (ln w - ln v) with (ln (w / v)).
  2:{ unfold Rdiv; rewrite ln_mult, ln_Rinv by (try apply Rinv_0_lt_compat; lra); ring. }
  apply ln_near_one; [lra|].
  split; [apply Rmult_le_reg_r with v; [lra|]|apply Rmult_le_reg_r with v; [lra|]];
    unfold Rdiv; rewrite Rmult_assoc, Rinv_l, Rmult_1_r by lra; lra.
Qed.

Lemma exp_INR n : exp (INR n) = exp 1 ^ n.
Proof.
  induction n as [|n IH]; [simpl; apply exp_0|].
  rewrite S_INR, exp_plus, IH; simpl; ring.
Qed.

Lemma exp_45 : exp 45 <= 2954312706550833698643.
Proof.
  replace 45 with (INR 45) by (rewrite INR_IZR_INZ; reflexivity).
  rewrite exp_INR.
  apply Rle_trans with (3 ^ 45).
  - apply pow_incr; split; [apply Rlt_le, exp_pos|apply exp_le_3].
  - rewrite pow_IZR; apply IZR_le; vm_compute; discriminate.
Qed.

Lemma Rabs_mult_le a b c : 0 <= c -> Rabs b <= c -> Rabs (a * b) <= Rabs a * c.
Proof.
  intros Hc H; rewrite Rabs_mult; apply Rmult_le_compat_l; [apply Rabs_pos|exact H].
Qed.

(** The result of [pow(1.0001, y)] for [|y| <= 443637], when [pow] is
    accurate to [2^-30], lies in [[2^-73, 2^73]]. *)
Lemma pow_range Y X lam :
  Rabs Y <= 443637 -> 0 < lam <= 10001 / 100000000 ->
  Rabs (X - exp (Y * lam)) <= / 1073741824 * exp (Y * lam) ->
  / 9444732965739290427392 <= X <= 9444732965739290427392.
Proof.
  intros HY Hl HX.
  apply Rabs_le_inv in HX.
  assert (HYl : Rabs (Y * lam) <= 45).
  { rewrite Rabs_mult, (Rabs_pos_eq lam) by lra.
    apply Rle_trans with (443637 * (10001 / 100000000)); [|lra].
    apply Rmult_le_compat; try lra; apply Rabs_pos. }
  apply Rabs_le_inv in HYl.
  pose proof exp_45 as H45.
  assert (Hu : exp (Y * lam) <= 2954312706550833698643)
    by (apply Rle_trans with (exp 45); [apply exp_le_mono; lra|exact H45]).
  assert (Hl45 : / 2954312706550833698643 <= exp (Ropp 45)).
  { rewrite exp_Ropp; apply Rinv_le_contravar; [apply exp_pos|exact H45]. }
  assert (Hd : exp (Ropp 45) <= exp (Y * lam)) by (apply exp_le_mono; lra).
  split; lra.
Qed.

Definition u52 : R := / 4503599627370496.
Definition q96R : R := 79228162514264337593543950336.

Lemma q96R_bp : powerRZ 2 96 = q96R.
Proof.
  unfold q96R; rewrite <- IZR_pow2 by lia; reflexivity.
Qed.

(** The error chain of the round trip, in real numbers: the computed
    logarithm of the price is [t] logarithms of the base, up to a small
    fraction of one. *)
Lemma log_chain t lam Y X V S X2 P L1 L2 :
  1 <= Rabs t <= 887272 ->
  99990 / 1000000000 <= lam <= 10001 / 100000000 ->
  Rabs (Y - t / 2) <= Rabs t / 2 * u52 ->
  Rabs (X - exp (Y * lam)) <= eps30 * exp (Y * lam) ->
  Rabs (V - X * q96R) <= X * q96R * u52 ->
  S <= V < S + 1 ->
  Rabs (X2 - S / q96R) <= S / q96R * u52 ->
  Rabs (P - X2 * X2) <= eps30 * (X2 * X2) ->
  Rabs (L1 - ln P) <= eps30 * Rabs (ln P) ->
  Rabs (L2 - lam) <= eps30 * lam ->
  Rabs (L1 - t * L2) <= L2 / 20 /\ / 1048576 <= Rabs L1 <= 1024 /\
  / 32768 <= L2 <= / 8192.
Proof.
  unfold u52, eps30, q96R.
  intros Ht Hl HY HX HV HS HX2 HP HL1 HL2.
  assert (HYb : Rabs Y <= 443637).
  { pose proof (Rabs_triang_inv Y (t / 2)) as Ht2.
    unfold Rdiv at 1 in Ht2; rewrite Rabs_mult, (Rabs_pos_eq (/ 2)) in Ht2 by lra.
    lra. }
  pose proof (pow_range Y X lam HYb ltac:(lra) HX) as [HXl HXu].
  set (A := exp (Y * lam)) in *.
  assert (HA : 0 < A) by apply exp_pos.
  (* [ln X] *)
  pose proof (ln_close X A (/ 1073741824) HA ltac:(lra) HX) as F1.
  unfold A in F1; rewrite ln_exp in F1; fold A in F1.
  (* [ln V] *)
  assert (HXq : 0 < X * 79228162514264337593543950336) by lra.
  pose proof (ln_close V _ (/ 4503599627370496) HXq ltac:(lra) ltac:(lra)) as F2.
  rewrite ln_mult in F2 by lra.
  apply Rabs_le_inv in HV.
  assert (HVl : 4194304 <= V) by lra.
  (* [ln S] *)
  assert (HSp : 0 < S) by lra.
  assert (HVi : 0 < / V <= / 4194304)
    by (split; [apply Rinv_0_lt_compat; lra|apply Rinv_le_contravar; lra]).
  pose proof (ln_close S V (/ V) ltac:(lra) ltac:(lra)
                ltac:(rewrite Rinv_l by lra; apply Rabs_le; lra)) as F3.
  (* [ln X2] *)
  assert (HSq : 0 < S / 79228162514264337593543950336)
    by (apply Rdiv_lt_0_compat; lra).
  pose proof (ln_close X2 _ (/ 4503599627370496) HSq ltac:(lra) ltac:(lra)) as F4.
  unfold Rdiv in F4; rewrite ln_mult, ln_Rinv in F4 by (try apply Rinv_0_lt_compat; lra).
  apply Rabs_le_inv in HX2.
  assert (HX2p : 0 < X2).
  { assert (S / 79228162514264337593543950336 * (1 - / 4503599627370496) <= X2) by lra.
    assert (0 < S / 79228162514264337593543950336 * (1 - / 4503599627370496)) by nra.
    lra. }
  (* [ln P] *)
  assert (HX22 : 0 < X2 * X2) by nra.
  pose proof (ln_close P _ (/ 1073741824) HX22 ltac:(lra) HP) as F5.
  rewrite ln_mult in F5 by lra.
  (* [Y lam] against [t lam / 2] *)
  assert (F6 : Rabs ((Y - t / 2) * lam) <= 443636 * / 4503599627370496 * (10001 / 100000000)).
  { rewrite Rabs_mult, (Rabs_pos_eq lam) by lra.
    apply Rmult_le_compat; [apply Rabs_pos|lra| |lra].
    apply Rle_trans with (Rabs t / 2 * / 4503599627370496); [exact HY|].
    lra. }
  assert (Htl : lam <= Rabs (t * lam) <= 887272 * (10001 / 100000000)).
  { rewrite Rabs_mult, (Rabs_pos_eq lam) by lra; split; nra. }
  apply Rabs_le_inv in F1; apply Rabs_le_inv in F2; apply Rabs_le_inv in F3;
    apply Rabs_le_inv in F4; apply Rabs_le_inv in F5; apply Rabs_le_inv in F6.
  assert (HE : Rabs (ln P - t * lam) <= / 1000000).
  { apply Rabs_le; split; nra. }
  (* the two logarithms *)
  assert (HlnP : Rabs (ln P) <= 887272 * (10001 / 100000000) + / 1000000).
  { pose proof (Rabs_triang (ln P - t * lam) (t * lam)) as Hr.
    replace (ln P - t * lam + t * lam) with (ln P) in Hr by ring; lra. }
  assert (HlnP' : lam - / 1000000 <= Rabs (ln P)).
  { pose proof (Rabs_triang_inv (t * lam) (t * lam - ln P)) as Hr.
    replace (t * lam - (t * lam - ln P)) with (ln P) in Hr by ring.
    rewrite Rabs_minus_sym in Hr; lra. }
  assert (Hd4 : Rabs (t * (L2 - lam)) <= / 1073741824 * Rabs (t * lam)).
  { rewrite !Rabs_mult, (Rabs_pos_eq lam) by lra.
    apply Rabs_le_inv in HL2.
    assert (Rabs (L2 - lam) <= / 1073741824 * lam) by (apply Rabs_le; lra).
    pose proof (Rabs_pos t); nra. }
  apply Rabs_le_inv in HL1; apply Rabs_le_inv in HL2; apply Rabs_le_inv in Hd4;
    apply Rabs_le_inv in HE.
  split; [|split; [split|]].
  - apply Rabs_le; split; nra.
  - pose proof (Rabs_triang_inv (ln P) (ln P - L1)) as Hr.
    replace (ln P - (ln P - L1)) with L1 in Hr by ring.
    rewrite Rabs_minus_sym in Hr.
    assert (Rabs (L1 - ln P) <= / 1073741824 * Rabs (ln P)) by (apply Rabs_le; lra).
    lra.
  - pose proof (Rabs_triang (L1 - ln P) (ln P)) as Hr.
    replace (L1 - ln P + ln P) with L1 in Hr by ring.
    assert (Rabs (L1 - ln P) <= / 1073741824 * Rabs (ln P)) by (apply Rabs_le; lra).
    lra.
  - lra.
Qed.

Lemma final_bound t L1 L2 T :
  Rabs t <= 887272 -> 0 < L2 -> Rabs (L1 - t * L2) <= L2 / 20 ->
  Rabs (T - L1 / L2) <= Rabs (L1 / L2) * u52 -> Rabs (T - t) <= / 10.
Proof.
  unfold u52; intros Ht HL2 H HT.
  assert (HQ : Rabs (L1 / L2 - t) <= / 20).
  { replace (L1 / L2 - t) with ((L1 - t * L2) / L2) by (field; lra).
    unfold Rdiv; rewrite Rabs_mult, Rabs_inv, (Rabs_pos_eq L2) by lra.
    apply Rmult_le_reg_r with L2; [lra|].
    rewrite Rmult_assoc, Rinv_l, Rmult_1_r by lra; lra. }
  assert (HQb : Rabs (L1 / L2) <= 887273).
  { pose proof (Rabs_triang (L1 / L2 - t) t) as Hr.
    replace (L1 / L2 - t + t) with (L1 / L2) in Hr by ring; lra. }
  pose proof (Rabs_triang (T - L1 / L2) (L1 / L2 - t)) as Hr.
  replace (T - L1 / L2 + (L1 / L2 - t)) with (T - t) in Hr by ring.
  lra.
Qed.

Lemma valid_finite_bounds s m e :
  valid_binary prec emax (S754_finite s m e) = true ->
  (emin prec emax <= e /\ Zdigits2 (Zpos m) <= 53)%Z.
Proof.
  simpl; unfold bounded, canonical_mantissa.
  intros H; apply andb_prop in H as [H _]; apply Z.eqb_eq in H.
  unfold fexp, emin, prec, emax in *; simpl Zdigits2; lia.
Qed.

Lemma B2R_pos m e : B2R (S754_finite false m e) = IZR (Zpos m) * powerRZ 2 e.
Proof. reflexivity. Qed.

Lemma B2R_neg m e : B2R (S754_finite true m e) = - (IZR (Zpos m) * powerRZ 2 e).
Proof. simpl; change (Zneg m) with (- Zpos m)%Z; rewrite Ropp_Ropp_IZR; ring. Qed.

Lemma B2R_mag s m e : Rabs (B2R (S754_finite s m e)) = IZR (Zpos m) * powerRZ 2 e.
Proof.
  pose proof (bp_pos e); assert (0 < IZR (Zpos m)) by (apply IZR_lt; lia).
  destruct s; [rewrite B2R_neg, Rabs_Ropp|rewrite B2R_pos]; apply Rabs_pos_eq; nra.
Qed.

(** An accurate result for a positive exact value is a positive binary64
    number. *)
Lemma accurate_pos r v :
  libm_accurate r v -> 0 < v ->
  exists m e, r = S754_finite false m e /\
    (emin prec emax <= e /\ Zdigits2 (Zpos m) <= 53)%Z /\
    Rabs (IZR (Zpos m) * powerRZ 2 e - v) <= eps30 * v.
Proof.
  intros [Hv [Hf Ha]] Hp; unfold eps30 in *.
  rewrite (Rabs_pos_eq v) in Ha by lra.
  apply Rabs_le_inv in Ha as Ha'.
  destruct r as [s|s| |s m e]; try discriminate.
  - change (B2R (S754_zero s)) with 0 in Ha'; lra.
  - pose proof (bp_pos e); assert (0 < IZR (Zpos m)) by (apply IZR_lt; lia).
    destruct s.
    + rewrite B2R_neg in Ha'; nra.
    + exists m, e; split; [reflexivity|split; [exact (valid_finite_bounds _ _ _ Hv)|exact Ha]].
Qed.

Lemma SFeqb_one m e :
  SFeqb (S754_finite false m e) float_one = true -> m = 4503599627370496%positive /\ e = (-52)%Z.
Proof.
  unfold SFeqb, SFcompare, float_one.
  destruct (Z.compare_spec e (-52)) as [He|He|He]; try discriminate.
  intros H; split; [|exact He].
  destruct (Pos.compare_cont Eq m 4503599627370496) eqn:Hc; try discriminate.
  apply Pos.compare_eq; exact Hc.
Qed.

Lemma B2R_one : B2R float_one = 1.
Proof.
  unfold float_one; rewrite B2R_pos.
  change (-52)%Z with (Z.opp 52); rewrite powerRZ_neg'.
  rewrite <- IZR_pow2 by lia; simpl; lra.
Qed.

Lemma f1_0001_eq : f1_0001 = S754_finite false 4504049987333233 (-52).
Proof. vm_compute; reflexivity. Qed.

Lemma a_val : B2R f1_0001 = 4504049987333233 / 4503599627370496.
Proof.
  rewrite f1_0001_eq, B2R_pos.
  change (-52)%Z with (Z.opp 52); rewrite powerRZ_neg'.
  rewrite <- IZR_pow2 by lia; reflexivity.
Qed.

(** [ln 1.0001] (of the double nearest [1.0001]) lies in
    [[0.9999e-4, 1.0001e-4]]. *)
Lemma lam_bounds : 99990 / 1000000000 <= ln (B2R f1_0001) <= 10001 / 100000000.
Proof.
  rewrite a_val; split.
  - apply ln_ge_of_exp; [lra|].
    set (c := 99990 / 1000000000).
    pose proof (exp_ineq1_le (- c)) as H1.
    assert (Hm : exp c * exp (- c) = 1)
      by (rewrite <- exp_plus; replace (c + - c) with 0 by ring; apply exp_0).
    pose proof (exp_pos c).
    unfold c in *; nra.
  - apply ln_le_of_exp; [lra|].
    eapply Rle_trans; [|apply exp_le_mono with (x := 4504049987333233 / 4503599627370496 - 1); lra].
    pose proof (exp_ineq1_le (4504049987333233 / 4503599627370496 - 1)); lra.
Qed.

Lemma math_1_log_ok c_log m e :
  is_finite (c_log (S754_finite false m e)) = true ->
  math_1_log c_log (S754_finite false m e) = Ok (c_log (S754_finite false m e)).
Proof.
  intros H; unfold math_1_log, m_log.
  destruct (c_log (S754_finite false m e)); try discriminate; reflexivity.
Qed.

Lemma bp_neg_val k : (0 <= k)%Z -> powerRZ 2 (- k) = / IZR (2 ^ k).
Proof. intros Hk; rewrite powerRZ_neg', <- IZR_pow2 by lia; reflexivity. Qed.

Lemma Zdigits2_pos m : (0 < m)%Z -> (1 <= Zdigits2 m)%Z.
Proof. destruct m; simpl; lia. Qed.

Lemma IZR_q96 : IZR q96 = q96R.
Proof. reflexivity. Qed.

(** The rounded half of a non-zero tick, with its sign. *)
Lemma half_signed a m e :
  a <> 0%Z ->
  Rabs (IZR (Zpos m) * powerRZ 2 e - IZR (Z.abs a) / IZR 2) <= IZR (Z.abs a) / IZR 2 / 4503599627370496 ->
  Rabs (B2R (S754_finite (a <? 0)%Z m e) - IZR a / 2) <= Rabs (IZR a) / 2 * u52.
Proof.
  unfold u52; intros Ha H.
  destruct (Z.ltb_spec a 0) as [Hn|Hn].
  - rewrite B2R_neg.
    rewrite Z.abs_neq in H by lia; rewrite Ropp_Ropp_IZR in H.
    rewrite (Rabs_left (IZR a)) by (apply IZR_lt; lia).
    replace (- (IZR (Zpos m) * powerRZ 2 e) - IZR a / 2)
      with (- (IZR (Zpos m) * powerRZ 2 e - - IZR a / IZR 2)) by (simpl; field).
    rewrite Rabs_Ropp; unfold Rdiv in *; lra.
  - rewrite B2R_pos.
    rewrite Z.abs_eq in H by lia.
    rewrite (Rabs_pos_eq (IZR a)) by (apply IZR_le; lia).
    change (IZR 2) with 2 in H; unfold Rdiv in *; lra.
Qed.

Lemma price_to_tick_eval c_log lbi mp ep L1 m2 e2 :
  c_log (S754_finite false mp ep) = L1 -> is_finite L1 = true ->
  c_log f1_0001 = S754_finite false m2 e2 ->
  price_to_tick c_log lbi (NFloat (S754_finite false mp ep)) =
  float_floor (fdiv L1 (S754_finite false m2 e2)).
Proof.
  intros H1 Hf H2; unfold price_to_tick, math_log, loghelper.
  rewrite math_1_log_ok by (rewrite H1; exact Hf); rewrite H1; cbn [bind].
  rewrite f1_0001_eq in *.
  rewrite math_1_log_ok by (rewrite H2; reflexivity); rewrite H2; cbn [bind].
  reflexivity.
Qed.

Lemma bp_m20 : powerRZ 2 (-20) = / 1048576.
Proof. apply (bp_neg_val 20); lia. Qed.
Lemma bp_m15 : powerRZ 2 (-15) = / 32768.
Proof. apply (bp_neg_val 15); lia. Qed.
Lemma bp_m13 : powerRZ 2 (-13) = / 8192.
Proof. apply (bp_neg_val 13); lia. Qed.
Lemma bp_10 : powerRZ 2 10 = 1024.
Proof. rewrite <- IZR_pow2 by lia; reflexivity. Qed.
Lemma bp_73 : powerRZ 2 73 = 9444732965739290427392.
Proof. rewrite <- IZR_pow2 by lia; reflexivity. Qed.
Lemma bp_170 : powerRZ 2 170 = IZR (2 ^ 170).
Proof. rewrite <- IZR_pow2 by lia; reflexivity. Qed.

Lemma round_trip_nonzero c_pow c_log lbi t m2 e2 :
  (1 <= Z.abs t <= 887272)%Z ->
  round_trip_accurate c_pow c_log t ->
  c_log f1_0001 = S754_finite false m2 e2 ->
  (emin prec emax <= e2 /\ Zdigits2 (Zpos m2) <= 53)%Z ->
  Rabs (IZR (Zpos m2) * powerRZ 2 e2 - ln (B2R f1_0001)) <= eps30 * ln (B2R f1_0001) ->
  exists k, tick_round_trip c_pow c_log lbi t = Ok k /\ (t - 1 <= k <= t)%Z.
Proof.
  intros Hta [H1 [H2 [H3 _]]] HL2 [He2 Hd2] HL2err.
  pose proof lam_bounds as Hlam.
  set (lam := ln (B2R f1_0001)) in *.
  (* y = t / 2 *)
  destruct (int_truediv_rel t 2) as [my [ey [Hy Hyerr]]]; [lia|lia| |].
  { pose proof (Zdigits2_pos (Z.abs t) ltac:(lia)).
    pose proof (Zdigits2_le (Z.abs t) 20 ltac:(lia) ltac:(simpl; lia)).
    simpl (Zdigits2 2); lia. }
  set (y := S754_finite (t <? 0)%Z my ey) in *.
  assert (HY : Rabs (B2R y - IZR t / 2) <= Rabs (IZR t) / 2 * u52)
    by (apply half_signed; [lia|exact Hyerr]).
  assert (Htr : 1 <= Rabs (IZR t) <= 887272).
  { rewrite <- abs_IZR; split; apply IZR_le; lia. }
  (* x = 1.0001 ** y *)
  destruct (accurate_pos _ _ (H1 y Hy)) as [mx [ex [Hx [[Hex Hdx] Hxerr]]]].
  { unfold Rpower; apply exp_pos. }
  unfold Rpower in Hxerr; fold lam in Hxerr.
  set (Xr := IZR (Zpos mx) * powerRZ 2 ex) in *.
  assert (HXr : / 9444732965739290427392 <= Xr <= 9444732965739290427392).
  { apply (pow_range (B2R y) Xr lam); [|lra|unfold eps30 in Hxerr; exact Hxerr].
    unfold u52 in HY; apply Rabs_le_inv in HY.
    pose proof Htr as [_ Ht1]; pose proof (Rabs_le_inv _ _ Ht1).
    apply Rabs_le; split; lra. }
  assert (Hpow : pow_1_0001 c_pow y = Ok (S754_finite false mx ex))
    by (unfold pow_1_0001, y; unfold y in Hx; rewrite Hx; reflexivity).
  (* v = x * q96 *)
  destruct (fmul_q96_rel mx ex Hex) as [mv [ev [Hv Hverr]]].
  { pose proof (bp_lt 73 900 ltac:(lia)); rewrite bp_73 in H; fold Xr; lra. }
  destruct (int_of_float_floor mv ev) as [s [Hs Hsfl]].
  set (V := IZR (Zpos mv) * powerRZ 2 ev) in *.
  rewrite q96R_bp in Hverr; fold Xr in Hverr.
  assert (Hts : tick_to_sqrtp c_pow t = Ok s).
  { unfold tick_to_sqrtp; rewrite Hy; cbn [bind]; rewrite Hpow; cbn [bind py_mul to_float].
    rewrite float_of_int_q96; cbn [bind]; rewrite Hv; exact Hs. }
  assert (HVb : 4194303 <= V <= IZR (2 ^ 170) - 1).
  { rewrite <- bp_170; unfold q96R in Hverr; apply Rabs_le_inv in Hverr.
    rewrite <- IZR_pow2 by lia; simpl (2 ^ 170)%Z; lra. }
  assert (Hsb : (1 <= s < 2 ^ 170)%Z).
  { assert (0 < s)%Z by (apply lt_IZR; lra).
    assert (s < 2 ^ 170)%Z by (apply lt_IZR; lra).
    lia. }
  (* x2 = s / q96 *)
  destruct (int_truediv_rel s q96) as [mq [eq [Hx2 Hx2err]]]; [lia|reflexivity| |].
  { pose proof (Zdigits2_pos (Z.abs s) ltac:(lia)).
    pose proof (Zdigits2_le (Z.abs s) 170 ltac:(lia) ltac:(lia)).
    change (Zdigits2 q96) with 97%Z; lia. }
  replace (s <? 0)%Z with false in Hx2 by (symmetry; apply Z.ltb_ge; lia).
  rewrite Z.abs_eq in Hx2err by lia; rewrite IZR_q96 in Hx2err.
  set (X2 := IZR (Zpos mq) * powerRZ 2 eq) in *.
  assert (HX2pos : 0 < X2).
  { unfold X2; pose proof (bp_pos eq); assert (0 < IZR (Zpos mq)) by (apply IZR_lt; lia); nra. }
  (* p = x2 ** 2 *)
  assert (Hp : exists mp ep, sqrtp_to_price c_pow s = Ok (S754_finite false mp ep) /\
            Rabs (IZR (Zpos mp) * powerRZ 2 ep - X2 * X2) <= eps30 * (X2 * X2)).
  { unfold sqrtp_to_price; rewrite Hx2; cbn [bind float_pow2].
    destruct (SFeqb (S754_finite false mq eq) float_one) eqn:Heq.
    - apply SFeqb_one in Heq as [-> ->].
      exists 4503599627370496%positive, (-52)%Z; split; [reflexivity|].
      pose proof B2R_one as Hone; unfold float_one in Hone; rewrite B2R_pos in Hone.
      assert (HX : X2 = 1) by exact Hone.
      rewrite Hone, HX; replace (1 - 1 * 1) with 0 by ring.
      rewrite Rabs_R0; unfold eps30; lra.
    - destruct (accurate_pos _ _ (H2 s _ Hts Hx2)) as [mp [ep [Hpe [_ Hperr]]]].
      { rewrite B2R_pos; fold X2; nra. }
      rewrite B2R_pos in Hperr; fold X2 in Hperr.
      exists mp, ep; rewrite Hpe; split; [reflexivity|exact Hperr]. }
  destruct Hp as [mp [ep [Hp Hperr]]].
  set (P := IZR (Zpos mp) * powerRZ 2 ep) in *.
  (* l1 = log p *)
  destruct (H3 s _ Hts Hp) as [HL1v [HL1f HL1err]].
  rewrite B2R_pos in HL1err; fold P in HL1err.
  set (L2 := IZR (Zpos m2) * powerRZ 2 e2) in *.
  assert (HL2' : Rabs (L2 - lam) <= eps30 * lam) by exact HL2err.
  destruct (log_chain (IZR t) lam (B2R y) Xr V (IZR s) X2 P
              (B2R (c_log (S754_finite false mp ep))) L2)
    as [Hc [HL1b HL2b]]; try assumption.
  destruct (c_log (S754_finite false mp ep)) as [s1|s1| |s1 m1 e1] eqn:HL1;
    try discriminate.
  { simpl in HL1b; rewrite Rabs_R0 in HL1b; lra. }
  rewrite B2R_mag in HL1b.
  destruct (valid_finite_bounds _ _ _ HL1v) as [He1 Hd1].
  (* t' = l1 / l2 *)
  pose proof (mant_bounds (Zpos m1) e1 ltac:(lia)) as [Hm1a Hm1b].
  pose proof (mant_bounds (Zpos m2) e2 ltac:(lia)) as [Hm2a Hm2b].
  fold L2 in Hm2a, Hm2b.
  assert (HD1 : (-19 <= Zdigits2 (Zpos m1) + e1 <= 11)%Z).
  { split.
    - assert (-20 < Zdigits2 (Zpos m1) + e1)%Z by (apply bp_lt_inv; rewrite bp_m20; lra).
      lia.
    - assert (Zdigits2 (Zpos m1) + e1 - 1 < 11)%Z by (apply bp_lt_inv;
        replace 11%Z with (10 + 1)%Z by reflexivity; rewrite bp_add, bp_10;
        simpl (powerRZ 2 1); lra).
      lia. }
  assert (HD2 : (-14 <= Zdigits2 (Zpos m2) + e2 <= -12)%Z).
  { split.
    - assert (-15 < Zdigits2 (Zpos m2) + e2)%Z by (apply bp_lt_inv; rewrite bp_m15; lra).
      lia.
    - assert (Zdigits2 (Zpos m2) + e2 - 1 < -12)%Z by (apply bp_lt_inv;
        change (-12)%Z with (Z.opp 12); rewrite (bp_neg_val 12) by lia; simpl (2 ^ 12)%Z; lra).
      lia. }
  destruct (fdiv_rel s1 m1 e1 false m2 e2 Hd1 ltac:(lia)) as [mT [eT [HT HTerr]]].
  rewrite xorb_false_r in HT.
  destruct (float_floor_spec (S754_finite s1 mT eT) eq_refl) as [k [Hk Hkb]].
  assert (HTb : Rabs (B2R (S754_finite s1 mT eT) - IZR t) <= / 10).
  { apply (final_bound (IZR t) (B2R (S754_finite s1 m1 e1)) L2); [lra|lra|exact Hc|].
    fold L2 in HTerr; unfold u52.
    assert (0 < L2) by lra.
    destruct s1.
    - rewrite !B2R_neg.
      replace (- (IZR (Zpos mT) * powerRZ 2 eT) - - (IZR (Zpos m1) * powerRZ 2 e1) / L2)
        with (- (IZR (Zpos mT) * powerRZ 2 eT - IZR (Zpos m1) * powerRZ 2 e1 / L2))
        by (field; lra).
      replace (- (IZR (Zpos m1) * powerRZ 2 e1) / L2)
        with (- (IZR (Zpos m1) * powerRZ 2 e1 / L2)) by (field; lra).
      rewrite !Rabs_Ropp, (Rabs_pos_eq (_ / L2));
        [unfold Rdiv in *; lra|].
      apply Rlt_le, Rdiv_lt_0_compat; [pose proof (bp_pos e1); assert (0 < IZR (Zpos m1)) by (apply IZR_lt; lia); nra|lra].
    - rewrite !B2R_pos.
      rewrite (Rabs_pos_eq (_ / L2));
        [unfold Rdiv in *; lra|].
      apply Rlt_le, Rdiv_lt_0_compat; [pose proof (bp_pos e1); assert (0 < IZR (Zpos m1)) by (apply IZR_lt; lia); nra|lra]. }
  exists k; split.
  - unfold tick_round_trip; rewrite Hts; cbn [bind]; rewrite Hp; cbn [bind].
    rewrite (price_to_tick_eval c_log lbi mp ep (S754_finite s1 m1 e1) m2 e2 HL1 eq_refl HL2).
    rewrite HT; exact Hk.
  - apply Rabs_le_inv in HTb.
    split.
    + assert (IZR (t - 2) < IZR k) by (rewrite minus_IZR; simpl; lra).
      apply lt_IZR in H; lia.
    + assert (IZR k < IZR (t + 1)) by (rewrite plus_IZR; simpl; lra).
      apply lt_IZR in H; lia.
Qed.

Lemma round_trip_zero c_pow c_log lbi m2 e2 :
  round_trip_accurate c_pow c_log 0 -> c_log f1_0001 = S754_finite false m2 e2 ->
  tick_round_trip c_pow c_log lbi 0 = Ok 0%Z.
Proof.
  intros [_ [_ [H3 _]]] HL2.
  assert (Hs : tick_to_sqrtp c_pow 0 = Ok q96) by (vm_compute; reflexivity).
  assert (Hp : sqrtp_to_price c_pow q96 = Ok float_one) by (vm_compute; reflexivity).
  destruct (H3 _ _ Hs Hp) as [_ [Hf Herr]].
  rewrite B2R_one, ln_1, Rabs_R0, Rmult_0_r in Herr.
  unfold tick_round_trip; rewrite Hs; cbn [bind]; rewrite Hp; cbn [bind].
  destruct (c_log float_one) as [s1|s1| |s1 m1 e1] eqn:HL1; try discriminate.
  - change float_one with (S754_finite false 4503599627370496 (-52)).
    rewrite (price_to_tick_eval c_log lbi _ _ (S754_zero s1) m2 e2 HL1 eq_refl HL2).
    reflexivity.
  - rewrite Rminus_0_r, B2R_mag in Herr.
    pose proof (bp_pos e1); assert (0 < IZR (Zpos m1)) by (apply IZR_lt; lia); nra.
Qed.

(** C7: for every tick [t] in [[-887272, 887272]], when the platform [pow]
    and [log] are accurate to [2^-30] on each call the round trip makes,
    [price_to_tick(sqrtp_to_price(tick_to_sqrtp(t)))] returns a tick [k]
    with [t - 1 <= k <= t]: it differs from [t] by at most [1]. *)
Theorem tick_round_trip_within_one c_pow c_log lbi t :
  (min_tick <= t <= max_tick)%Z -> round_trip_accurate c_pow c_log t ->
  exists k, tick_round_trip c_pow c_log lbi t = Ok k /\ (t - 1 <= k <= t)%Z.
Proof.
  intros Ht Hacc; pose proof Hacc as [_ [_ [_ H4]]].
  destruct (accurate_pos _ _ H4) as [m2 [e2 [HL2 [Hb2 HL2err]]]];
    [pose proof lam_bounds; lra|].
  destruct (Z.eq_dec t 0) as [->|Hn].
  - exists 0%Z; split; [exact (round_trip_zero _ _ _ m2 e2 Hacc HL2)|lia].
  - apply (round_trip_nonzero c_pow c_log lbi t m2 e2);
      [unfold min_tick, max_tick in Ht; lia|exact Hacc|exact HL2|exact Hb2|exact HL2err].
Qed.

(** Lower bounds on [exp] by repeated squaring, rounding down in [Z]. *)
Definition sq_down (P r : Z) : Z := (r * r / 2 ^ P)%Z.

Fixpoint sq_iter (P : Z) (n : nat) (r : Z) : Z :=
  match n with O => r | S n => sq_iter P n (sq_down P r) end.

Lemma sq_down_le P r y :
  (0 <= P)%Z -> (0 <= r)%Z -> IZR r / IZR (2 ^ P) <= y ->
  IZR (sq_down P r) / IZR (2 ^ P) <= y * y.
Proof.
  intros HP Hr H; unfold sq_down.
  assert (HD : (0 < 2 ^ P)%Z) by (apply Z.pow_pos_nonneg; lia).
  pose proof (Z.mul_div_le (r * r) (2 ^ P) HD) as Hq.
  apply IZR_le in Hq; rewrite !mult_IZR in Hq.
  set (D := IZR (2 ^ P)) in *; set (q := IZR (r * r / 2 ^ P)) in *.
  assert (HD' : 0 < D) by (apply IZR_lt; lia).
  assert (Hr' : 0 <= IZR r / D).
  { unfold Rdiv; apply Rmult_le_pos; [apply IZR_le; lia|apply Rlt_le, Rinv_0_lt_compat; lra]. }
  apply Rle_trans with ((IZR r / D) * (IZR r / D)).
  - replace (IZR r / D * (IZR r / D)) with (IZR r * IZR r / D / D) by (field; lra).
    unfold Rdiv; apply Rmult_le_compat_r; [apply Rlt_le, Rinv_0_lt_compat; lra|].
    apply Rmult_le_reg_r with D; [lra|].
    rewrite Rmult_assoc, Rinv_l, Rmult_1_r by lra; lra.
  - apply Rmult_le_compat; lra.
Qed.

Lemma sq_iter_exp P n r z :
  (0 <= P)%Z -> (0 <= r)%Z -> IZR r / IZR (2 ^ P) <= exp z ->
  IZR (sq_iter P n r) / IZR (2 ^ P) <= exp (z * 2 ^ n).
Proof.
  intros HP; revert r z; induction n as [|n IH]; intros r z Hr H; simpl sq_iter.
  - rewrite pow_O, Rmult_1_r; exact H.
  - replace (z * 2 ^ S n) with ((z + z) * 2 ^ n) by (simpl; ring).
    apply IH.
    + apply Z.div_pos; [nia|apply Z.pow_pos_nonneg; lia].
    + rewrite exp_plus; apply sq_down_le; assumption.
Qed.

Lemma two_256 : IZR (2 ^ 256) =
  115792089237316195423570985008687907853269984665640564039457584007913129639936.
Proof. reflexivity. Qed.

(** [ln A <= x] from [2^20] squarings of [1 + x / 2^20]. *)
Lemma ln_upper_sq A x r0 R :
  0 < A -> (0 <= r0)%Z -> IZR r0 / IZR (2 ^ 256) <= 1 + x / 1048576 ->
  sq_iter 256 20 r0 = R -> A <= IZR R / IZR (2 ^ 256) -> ln A <= x.
Proof.
  intros HA Hr0 H0 HR HAR.
  apply ln_le_of_exp; [exact HA|].
  pose proof (sq_iter_exp 256 20 r0 (x / 1048576)) as H.
  specialize (H ltac:(lia) Hr0 (Rle_trans _ _ _ H0 (exp_ineq1_le _))).
  rewrite HR in H; replace (x / 1048576 * 2 ^ 20) with x in H by (simpl; lra).
  lra.
Qed.

(** [x <= ln A] from [2^20] squarings of [1 - x / 2^20]. *)
Lemma ln_lower_sq A x r0 R :
  0 < A -> (0 <= r0)%Z -> IZR r0 / IZR (2 ^ 256) <= 1 - x / 1048576 ->
  sq_iter 256 20 r0 = R -> 0 < IZR R -> IZR (2 ^ 256) <= A * IZR R -> x <= ln A.
Proof.
  intros HA Hr0 H0 HR HRp HAR.
  apply ln_ge_of_exp; [exact HA|].
  pose proof (sq_iter_exp 256 20 r0 (- x / 1048576)) as H.
  replace (1 - x / 1048576) with (1 + - x / 1048576) in H0 by (unfold Rdiv; ring).
  specialize (H ltac:(lia) Hr0 (Rle_trans _ _ _ H0 (exp_ineq1_le _))).
  rewrite HR in H; replace (- x / 1048576 * 2 ^ 20) with (- x) in H by (simpl; lra).
  assert (Hm : exp x * exp (- x) = 1)
    by (rewrite <- exp_plus; replace (x + - x) with 0 by ring; apply exp_0).
  assert (HD : 0 < IZR (2 ^ 256)) by (apply IZR_lt; reflexivity).
  assert (Hp : exp x * (IZR R / IZR (2 ^ 256)) <= 1).
  { rewrite <- Hm; apply Rmult_le_compat_l; [left; apply exp_pos|exact H]. }
  assert (Hq : exp x * IZR R <= IZR (2 ^ 256)).
  { apply Rmult_le_reg_r with (/ IZR (2 ^ 256)); [apply Rinv_0_lt_compat; lra|].
    rewrite Rinv_r by lra; unfold Rdiv in Hp; rewrite Rmult_assoc; exact Hp. }
  pose proof (exp_pos x); nra.
Qed.

Lemma ln_a_upper :
  ln (B2R f1_0001) <= 15844840281419122266864852 / 158456325028528675187087900672.
Proof.
  apply (ln_upper_sq _ _
    115792089248358437480675425585107268222477440740208743850365304671997905600512
    115803668446244765886862061420970551927565455542053738605381892046142460010885);
    rewrite ?a_val, ?two_256; [lra|lia|lra|vm_compute; reflexivity|lra].
Qed.

Lemma ln_a_lower :
  15844840266662464828474156 / 158456325028528675187087900672 <= ln (B2R f1_0001).
Proof.
  apply (ln_lower_sq _ _
    115792089226273953376750433729629563690262625595124084064862032453068189073408
    115780511186202416092555204934945804567906710580094829141816142433721485097288);
    rewrite ?a_val, ?two_256; [lra|lia|lra|vm_compute; reflexivity|lra|lra].
Qed.

(** A sample platform [pow] and [log], accurate on every call the round
    trip makes at tick [2]. *)
Definition w_price : float := S754_finite false 4504500392331966 (-52).
Definition w_log_a : float := S754_finite false 7378328719195348 (-66).
Definition w_log_price : float := S754_finite false 7378328719195348 (-65).

Definition w_c_pow (b e : float) : float := if SFeqb e float_two then w_price else b.

Definition w_c_log (f : float) : float :=
  if SFeqb f w_price then w_log_price
  else if SFeqb f float_one then S754_zero false else w_log_a.

Definition w_log_big_int (_ : Z) : float := S754_zero false.

Lemma w_price_val : B2R w_price = 4504500392331966 / 4503599627370496.
Proof.
  unfold w_price; rewrite B2R_pos; change (-52)%Z with (Z.opp 52).
  rewrite bp_neg_val by lia; reflexivity.
Qed.

Lemma ln_price_upper :
  ln (B2R w_price) <= 31689680562838244533729704 / 158456325028528675187087900672.
Proof.
  apply (ln_upper_sq _ _
    115792089259400679537779866161526628591684896814776923661273025336082681561088
    115815248813093125301240516457209404897495953313415143666376299500012452159603);
    rewrite ?w_price_val, ?two_256; [lra|lia|lra|vm_compute; reflexivity|lra].
Qed.

Lemma ln_price_lower :
  31689680533324929656948312 / 158456325028528675187087900672 <= ln (B2R w_price).
Proof.
  apply (ln_lower_sq _ _
    115792089215231711329929882450571219527255266524607604090266480898223248506880
    115768934292776874773037732145751763225269154764655329407675828583144304523347);
    rewrite ?w_price_val, ?two_256; [lra|lia|lra|vm_compute; reflexivity|lra|lra].
Qed.

Lemma w_log_a_accurate : libm_accurate (w_c_log f1_0001) (ln (B2R f1_0001)).
Proof.
  replace (w_c_log f1_0001) with w_log_a by (vm_compute; reflexivity).
  split; [vm_compute; reflexivity|split; [reflexivity|]].
  unfold w_log_a; rewrite B2R_pos; change (-66)%Z with (Z.opp 66).
  rewrite bp_neg_val by lia.
  replace (IZR (2 ^ 66)) with 73786976294838206464 by reflexivity.
  pose proof ln_a_upper; pose proof ln_a_lower.
  rewrite (Rabs_pos_eq (ln _)) by lra.
  apply Rabs_le; unfold eps30; lra.
Qed.

Lemma w_price_accurate : libm_accurate w_price (B2R f1_0001 * B2R f1_0001).
Proof.
  split; [vm_compute; reflexivity|split; [reflexivity|]].
  rewrite w_price_val, a_val.
  rewrite (Rabs_pos_eq (_ * _)) by lra.
  apply Rabs_le; unfold eps30; lra.
Qed.

Lemma w_pow_accurate_2 : pow_accurate_at w_c_pow 2.
Proof.
  intros y Hy; vm_compute in Hy; injection Hy as <-.
  replace (w_c_pow f1_0001 (S754_finite false 4503599627370496 (-52))) with f1_0001
    by (vm_compute; reflexivity).
  change (B2R (S754_finite false 4503599627370496 (-52))) with (B2R float_one).
  rewrite B2R_one, Rpower_1 by (rewrite a_val; lra).
  split; [vm_compute; reflexivity|split; [vm_compute; reflexivity|]].
  replace (B2R f1_0001 - B2R f1_0001) with 0 by ring; rewrite Rabs_R0.
  apply Rmult_le_pos; [unfold eps30; lra|apply Rabs_pos].
Qed.

Lemma B2R_two : B2R float_two = 2.
Proof.
  unfold float_two; rewrite B2R_pos; change (-51)%Z with (Z.opp 51).
  rewrite bp_neg_val by lia.
  replace (IZR (2 ^ 51)) with 2251799813685248 by reflexivity.
  simpl; lra.
Qed.

Lemma w_accurate_2 : round_trip_accurate w_c_pow w_c_log 2.
Proof.
  split; [exact w_pow_accurate_2|split; [|split]].
  - intros s x Hs Hx; vm_compute in Hs; injection Hs as <-.
    vm_compute in Hx; injection Hx as <-.
    rewrite <- f1_0001_eq.
    replace (w_c_pow f1_0001 float_two) with w_price by (vm_compute; reflexivity).
    exact w_price_accurate.
  - intros s p Hs Hp; vm_compute in Hs; injection Hs as <-.
    vm_compute in Hp; injection Hp as <-.
    change (S754_finite false 4504500392331966 (-52)) with w_price.
    replace (w_c_log w_price) with w_log_price by (vm_compute; reflexivity).
    split; [vm_compute; reflexivity|split; [reflexivity|]].
    unfold w_log_price; rewrite B2R_pos; change (-65)%Z with (Z.opp 65).
    rewrite bp_neg_val by lia.
    replace (IZR (2 ^ 65)) with 36893488147419103232 by reflexivity.
    pose proof ln_price_upper; pose proof ln_price_lower.
    rewrite (Rabs_pos_eq (ln _)) by lra.
    apply Rabs_le; unfold eps30; lra.
  - exact w_log_a_accurate.
Qed.

Lemma w_round_trip_2 : tick_round_trip w_c_pow w_c_log w_log_big_int 2 = Ok 2%Z.
Proof. vm_compute; reflexivity. Qed.

(** The round trip at tick [2] with the sample [pow] and [log]. *)
Lemma tick_round_trip_within_one_witness :
  round_trip_accurate w_c_pow w_c_log 2 /\
  exists k, tick_round_trip w_c_pow w_c_log w_log_big_int 2 = Ok k /\ (2 - 1 <= k <= 2)%Z.
Proof.
  split; [exact w_accurate_2|].
  apply (tick_round_trip_within_one w_c_pow w_c_log w_log_big_int 2);
    [unfold min_tick, max_tick; lia|exact w_accurate_2].
Defined.

(** ** [tick_to_sqrtp] in real numbers *)

(** The steps of [tick_to_sqrtp] at a non-zero tick, in real numbers: the
    rounded half [Y], the power [X], the scaled power [V] and its floor. *)
Lemma tick_to_sqrtp_chain c_pow t :
  (1 <= Z.abs t <= 887273)%Z -> pow_accurate_at c_pow t ->
  exists Y X V s, tick_to_sqrtp c_pow t = Ok s /\
    Rabs (Y - IZR t / 2) <= Rabs (IZR t) / 2 * u52 /\
    Rabs (X - exp (Y * ln (B2R f1_0001))) <= eps30 * exp (Y * ln (B2R f1_0001)) /\
    / 9444732965739290427392 <= X <= 9444732965739290427392 /\
    Rabs (V - X * q96R) <= X * q96R * u52 /\
    IZR s <= V < IZR s + 1.
Proof.
  intros Hta H1.
  pose proof lam_bounds as Hlam.
  set (lam := ln (B2R f1_0001)) in *.
  destruct (int_truediv_rel t 2) as [my [ey [Hy Hyerr]]]; [lia|lia| |].
  { pose proof (Zdigits2_pos (Z.abs t) ltac:(lia)).
    pose proof (Zdigits2_le (Z.abs t) 20 ltac:(lia) ltac:(simpl; lia)).
    simpl (Zdigits2 2); lia. }
  set (y := S754_finite (t <? 0)%Z my ey) in *.
  assert (HY : Rabs (B2R y - IZR t / 2) <= Rabs (IZR t) / 2 * u52)
    by (apply half_signed; [lia|exact Hyerr]).
  assert (Htr : 1 <= Rabs (IZR t) <= 887273).
  { rewrite <- abs_IZR; split; apply IZR_le; lia. }
  destruct (accurate_pos _ _ (H1 y Hy)) as [mx [ex [Hx [[Hex Hdx] Hxerr]]]].
  { unfold Rpower; apply exp_pos. }
  unfold Rpower in Hxerr; fold lam in Hxerr.
  set (Xr := IZR (Zpos mx) * powerRZ 2 ex) in *.
  assert (HXr : / 9444732965739290427392 <= Xr <= 9444732965739290427392).
  { apply (pow_range (B2R y) Xr lam); [|lra|unfold eps30 in Hxerr; exact Hxerr].
    unfold u52 in HY; apply Rabs_le_inv in HY.
    pose proof Htr as [_ Ht1]; pose proof (Rabs_le_inv _ _ Ht1).
    apply Rabs_le; split; lra. }
  assert (Hpow : pow_1_0001 c_pow y = Ok (S754_finite false mx ex))
    by (unfold pow_1_0001, y; unfold y in Hx; rewrite Hx; reflexivity).
  destruct (fmul_q96_rel mx ex Hex) as [mv [ev [Hv Hverr]]].
  { pose proof (bp_lt 73 900 ltac:(lia)); rewrite bp_73 in H; fold Xr; lra. }
  destruct (int_of_float_floor mv ev) as [s [Hs Hsfl]].
  set (V := IZR (Zpos mv) * powerRZ 2 ev) in *.
  rewrite q96R_bp in Hverr; fold Xr in Hverr.
  exists (B2R y), Xr, V, s; split; [|split; [exact HY|split; [exact Hxerr|split; [exact HXr|split; [|exact Hsfl]]]]].
  - unfold tick_to_sqrtp; rewrite Hy; cbn [bind]; rewrite Hpow; cbn [bind py_mul to_float].
    rewrite float_of_int_q96; cbn [bind]; rewrite Hv; exact Hs.
  - unfold u52; unfold Rdiv in Hverr; exact Hverr.
Qed.

Lemma exp_near d : Rabs d <= / 2 -> 1 - Rabs d <= exp d <= 1 + 2 * Rabs d.
Proof.
  intros Hd; pose proof (Rabs_le_inv _ _ Hd) as Hd'.
  pose proof (Rabs_le_inv _ _ (Rle_refl (Rabs d))) as Hr.
  pose proof (exp_ineq1_le d); pose proof (exp_ineq1_le (- d)).
  assert (Hm : exp d * exp (- d) = 1)
    by (rewrite <- exp_plus; replace (d + - d) with 0 by ring; apply exp_0).
  pose proof (exp_pos d); pose proof (Rabs_pos d).
  split; [lra|nra].
Qed.

(** [tick_to_sqrtp] at a tick [t] with [|t| <= 887273], when [pow] is
    accurate: within [2^-29] (plus one) of [1.0001^(t/2) * 2^96]. *)
Lemma tick_to_sqrtp_bounds c_pow t :
  (Z.abs t <= 887273)%Z -> pow_accurate_at c_pow t ->
  exists s, tick_to_sqrtp c_pow t = Ok s /\
    Rabs (IZR s - Rpower (B2R f1_0001) (IZR t / 2) * q96R)
      <= Rpower (B2R f1_0001) (IZR t / 2) * q96R / 536870912 + 1.
Proof.
  intros Hta H1.
  pose proof lam_bounds as Hlam.
  unfold Rpower; set (lam := ln (B2R f1_0001)) in *.
  destruct (Z.eq_dec t 0) as [->|Hn].
  - exists q96; split; [vm_compute; reflexivity|].
    rewrite IZR_q96; replace (IZR 0 / 2 * lam) with 0 by (simpl; field).
    rewrite exp_0, Rmult_1_l, Rminus_diag, Rabs_R0; unfold q96R; lra.
  - destruct (tick_to_sqrtp_chain c_pow t ltac:(lia) H1)
      as [Y [X [V [s [Hs [HY [HX [HXb [HV Hfl]]]]]]]]].
    fold lam in HX.
    exists s; split; [exact Hs|].
    assert (Htr : Rabs (IZR t) <= 887273) by (rewrite <- abs_IZR; apply IZR_le; lia).
    set (E0 := exp (IZR t / 2 * lam)).
    set (d := Y * lam - IZR t / 2 * lam).
    assert (Hd : Rabs d <= / 100000000000000).
    { unfold d; replace (Y * lam - IZR t / 2 * lam) with ((Y - IZR t / 2) * lam) by ring.
      rewrite Rabs_mult, (Rabs_pos_eq lam) by lra.
      pose proof (Rabs_pos (Y - IZR t / 2)).
      unfold u52 in HY.
      apply Rle_trans with ((Rabs (IZR t) / 2 * / 4503599627370496) * (10001 / 100000000)).
      - apply Rmult_le_compat; lra.
      - lra. }
    assert (HE : exp (Y * lam) = E0 * exp d)
      by (unfold E0, d; rewrite <- exp_plus; f_equal; ring).
    pose proof (exp_near d ltac:(lra)) as [Hd1 Hd2].
    assert (HE0 : 0 < E0) by apply exp_pos.
    assert (HEy : E0 * (1 - / 100000000000000) <= exp (Y * lam) <= E0 * (1 + 2 / 100000000000000)).
    { rewrite HE; split; apply Rmult_le_compat_l; lra. }
    apply Rabs_le_inv in HX; apply Rabs_le_inv in HV.
    unfold eps30, u52, q96R in *.
    apply Rabs_le; split; lra.
Qed.



(** The sample [pow] is also accurate at tick [4]: it returns the correctly
    rounded square of [1.0001]. *)
Lemma w_pow_accurate_4 : pow_accurate_at w_c_pow 4.
Proof.
  intros y Hy; vm_compute in Hy; injection Hy as <-.
  change (S754_finite false 4503599627370496 (-51)) with float_two.
  replace (w_c_pow f1_0001 float_two) with w_price by (vm_compute; reflexivity).
  rewrite B2R_two; replace 2 with (INR 2) by (simpl; ring).
  rewrite Rpower_pow by (rewrite a_val; lra).
  replace (B2R f1_0001 ^ 2) with (B2R f1_0001 * B2R f1_0001) by ring.
  exact w_price_accurate.
Qed.

(** At tick [4], a platform [pow] that returns the correctly rounded
    [1.0001 * 1.0001] for [pow(1.0001, 2.0)] (accurate there) makes
    [tick_to_sqrtp] return a value that is not [floor(1.0001^2 * 2^96)]. *)
Lemma tick_to_sqrtp_not_floor :
  fmul f1_0001 f1_0001 = w_price /\ pow_accurate_at w_c_pow 4 /\
  tick_to_sqrtp w_c_pow 4 = Ok 79244008939048809043492601856%Z /\
  (79244008939048809043492601856 <> 10001 * 10001 * 2 ^ 96 / 100000000)%Z.
Proof.
  split; [vm_compute; reflexivity|split; [exact w_pow_accurate_4|split]].
  - vm_compute; reflexivity.
  - vm_compute; discriminate.
Qed.

(** C9 (corrected): [tick_to_sqrtp] has no range check. For every tick [t]
    with [|t| <= 887273], so also at the ticks [-887273] and [887273] outside
    [[-887272, 887272]], it returns a value [s] when the platform [pow] is
    accurate to [2^-30], and [s] is within [1.0001^(t/2) * 2^96 / 2^29 + 1] of
    [1.0001^(t/2) * 2^96] ([1.0001] as its nearest double), not necessarily
    its floor. *)
Theorem tick_to_sqrtp_within_2pow29 c_pow t :
  (Z.abs t <= 887273)%Z -> pow_accurate_at c_pow t ->
  exists s, tick_to_sqrtp c_pow t = Ok s /\
    Rabs (IZR s - Rpower (B2R f1_0001) (IZR t / 2) * q96R)
      <= Rpower (B2R f1_0001) (IZR t / 2) * q96R / 536870912 + 1.
Proof. exact (tick_to_sqrtp_bounds c_pow t). Qed.

(** [tick_to_sqrtp] at tick [2] with the sample [pow]. *)
Lemma tick_to_sqrtp_within_2pow29_witness :
  pow_accurate_at w_c_pow 2 /\
  exists s, tick_to_sqrtp w_c_pow 2 = Ok s /\
    Rabs (IZR s - Rpower (B2R f1_0001) (IZR 2 / 2) * q96R)
      <= Rpower (B2R f1_0001) (IZR 2 / 2) * q96R / 536870912 + 1.
Proof.
  split; [exact w_pow_accurate_2|].
  apply (tick_to_sqrtp_within_2pow29 w_c_pow 2); [lia|exact w_pow_accurate_2].
Defined.


